(** * mrfoundation: guid.h and nanocom.h

    A shallow embedding of the guid value type (comparison, byte codecs,
    text parser and formatter, hash) and of the hresult helpers of the
    nano-COM header, with the properties the specification states about
    them. *)

From Stdlib Require Import ZArith String Ascii List Bool Lia.
Import ListNotations.
Local Open Scope Z_scope.

(** ** Fixed-width integers

    Every C++ integer is a [Z]; a conversion to a fixed-width type is
    written out where the source performs one. *)

Record int_type : Set := IntType { bits : Z; is_signed : bool }.

Definition wrap_unsigned (w z : Z) : Z := z mod 2 ^ w.
Definition wrap_signed (w z : Z) : Z := (z + 2 ^ (w - 1)) mod 2 ^ w - 2 ^ (w - 1).

(* static_cast<T>(z) for an integral T *)
Definition cast (T : int_type) (z : Z) : Z :=
  if is_signed T then wrap_signed (bits T) z else wrap_unsigned (bits T) z.

Definition uint8_t : int_type := IntType 8 false.
Definition uint16_t : int_type := IntType 16 false.
Definition uint32_t : int_type := IntType 32 false.
Definition int32_t : int_type := IntType 32 true.
(* the element types of the text codec *)
Definition char : int_type := IntType 8 true.
Definition unsigned_char : int_type := IntType 8 false.
Definition wchar_t : int_type := IntType 16 false.      (* Windows *)
Definition wchar_t_unix : int_type := IntType 32 true.  (* Linux *)

Definition u8 : Z -> Z := cast uint8_t.
Definition u16 : Z -> Z := cast uint16_t.
Definition u32 : Z -> Z := cast uint32_t.
Definition s32 : Z -> Z := cast int32_t.

(** ** Outcomes of a call

    A call returns, throws one of the exception types of the two headers,
    aborts the process, or reads outside the buffer it was handed. *)

Inductive exn : Set :=
| parse_error (message : string) (parsePoint : nat)
| format_error (message : string)
| invalid_win32_error_code
| hresult_failure (code : Z).

Inductive outcome (A : Type) : Type :=
| Return (a : A)
| Throw (e : exn)
| Abort
| OutOfBounds.
Arguments Return {A} a.
Arguments Throw {A} e.
Arguments Abort {A}.
Arguments OutOfBounds {A}.

Definition obind {A B} (m : outcome A) (f : A -> outcome B) : outcome B :=
  match m with
  | Return a => f a
  | Throw e => Throw e
  | Abort => Abort
  | OutOfBounds => OutOfBounds
  end.

(* evaluates the elements of a braced initialiser list left to right *)
Fixpoint osequence {A} (l : list (outcome A)) : outcome (list A) :=
  match l with
  | [] => Return []
  | m :: l' => obind m (fun a => obind (osequence l') (fun r => Return (a :: r)))
  end.

(** ** The guid structure *)

Record guid : Set := Guid {
  Data1 : Z;        (* uint32_t *)
  Data2 : Z;        (* uint16_t *)
  Data3 : Z;        (* uint16_t *)
  Data4 : list Z    (* uint8_t[8] *)
}.

Definition byte_ok (b : Z) : Prop := 0 <= b < 256.

Record valid_guid (g : guid) : Prop := ValidGuid {
  valid_Data1 : 0 <= Data1 g < 2 ^ 32;
  valid_Data2 : 0 <= Data2 g < 2 ^ 16;
  valid_Data3 : 0 <= Data3 g < 2 ^ 16;
  valid_Data4_size : length (Data4 g) = 8%nat;
  valid_Data4 : Forall byte_ok (Data4 g)
}.

Definition guid_null : guid := Guid 0 0 0 [0; 0; 0; 0; 0; 0; 0; 0].

(* g.Data4[i] *)
Definition Data4_at (g : guid) (i : nat) : Z := nth i (Data4 g) 0.

(** memcmp of the C library: the sign of the first difference of the two
    byte sequences, compared as unsigned char. *)
Fixpoint memcmp (l r : list Z) (n : nat) : Z :=
  match n with
  | O => 0
  | S n' =>
      let a := u8 (hd 0 l) in
      let b := u8 (hd 0 r) in
      if a <? b then -1
      else if b <? a then 1
      else memcmp (tl l) (tl r) n'
  end.

(* operator<(guid const&, guid const&) *)
Definition guid_lt (left right : guid) : bool :=
  if Data1 left <? Data1 right then true
  else if Data1 left =? Data1 right then
    if Data2 left <? Data2 right then true
    else if Data2 left =? Data2 right then
      if Data3 left <? Data3 right then true
      else if Data3 left =? Data3 right then
        memcmp (Data4 left) (Data4 right) 8 <? 0
      else false
    else false
  else false.

(** ** Byte codec *)

Definition encode_guid_as_variant1 (g : guid) : list Z :=
  [ u8 (Z.shiftr (Data1 g) 24);
    u8 (Z.shiftr (Data1 g) 16);
    u8 (Z.shiftr (Data1 g) 8);
    u8 (Data1 g);
    u8 (Z.shiftr (Data2 g) 8);
    u8 (Data2 g);
    u8 (Z.shiftr (Data3 g) 8);
    u8 (Data3 g);
    Data4_at g 0; Data4_at g 1; Data4_at g 2; Data4_at g 3;
    Data4_at g 4; Data4_at g 5; Data4_at g 6; Data4_at g 7 ].

(* u[i] *)
Definition at_ (u : list Z) (i : nat) : Z := nth i u 0.

Definition decode_guid_from_variant1 (u : list Z) : guid :=
  Guid (u32 (at_ u 0 * 0x01000000 + at_ u 1 * 0x00010000 + at_ u 2 * 0x00000100 + at_ u 3))
       (u16 (u32 (at_ u 4 * 0x0100 + at_ u 5)))
       (u16 (u32 (at_ u 6 * 0x0100 + at_ u 7)))
       [ at_ u 8; at_ u 9; at_ u 10; at_ u 11; at_ u 12; at_ u 13; at_ u 14; at_ u 15 ].

Definition encode_guid_as_variant2 (g : guid) : list Z :=
  [ u8 (Data1 g);
    u8 (Z.shiftr (Data1 g) 8);
    u8 (Z.shiftr (Data1 g) 16);
    u8 (Z.shiftr (Data1 g) 24);
    u8 (Data2 g);
    u8 (Z.shiftr (Data2 g) 8);
    u8 (Data3 g);
    u8 (Z.shiftr (Data3 g) 8);
    Data4_at g 0; Data4_at g 1; Data4_at g 2; Data4_at g 3;
    Data4_at g 4; Data4_at g 5; Data4_at g 6; Data4_at g 7 ].

Definition decode_guid_from_variant2 (u : list Z) : guid :=
  Guid (u32 (at_ u 0 + at_ u 1 * 0x00000100 + at_ u 2 * 0x00010000 + at_ u 3 * 0x01000000))
       (u16 (u32 (at_ u 4 + at_ u 5 * 0x0100)))
       (u16 (u32 (at_ u 6 + at_ u 7 * 0x0100)))
       [ at_ u 8; at_ u 9; at_ u 10; at_ u 11; at_ u 12; at_ u 13; at_ u 14; at_ u 15 ].

(** ** Text codec: the parser

    [guid_parser<T>] walks a cursor ([const T**]) over a buffer of code
    units.  The buffer is the list of code units the pointer points into,
    terminator included; the cursor is an offset into it. *)

Definition lit (c : ascii) : Z := Z.of_N (N_of_ascii c).

Definition parser (A : Type) : Type := list Z -> nat -> outcome (A * nat).

Definition pret {A} (a : A) : parser A := fun _ p => Return (a, p).

Definition pbind {A B} (m : parser A) (f : A -> parser B) : parser B :=
  fun buf p =>
    match m buf p with
    | Return (a, p') => f a buf p'
    | Throw e => Throw e
    | Abort => Abort
    | OutOfBounds => OutOfBounds
    end.

Definition pthrow {A} (e : exn) : parser A := fun _ _ => Throw e.

(* the pointer held by the cursor *)
Definition cursor : parser nat := fun _ p => Return (p, p).

(* the code unit under the cursor *)
Definition peek : parser Z :=
  fun buf p => match nth_error buf p with
               | Some c => Return (c, p)
               | None => OutOfBounds
               end.

(* increments the cursor *)
Definition advance : parser unit := fun _ p => Return (tt, S p).

Notation "x <- m ;; k" := (pbind m (fun x => k))
  (at level 61, m at next level, right associativity).
Notation "m ;;; k" := (pbind m (fun _ => k))
  (at level 61, right associativity).

Module guid_parser.
Section WithT.
Variable T : int_type.

Definition TryParseChar (c : Z) : parser bool :=
  x <- peek ;;
  if x =? c then advance ;;; pret true else pret false.

Definition ParseChar (c : Z) : parser unit :=
  ok <- TryParseChar c ;;
  if negb ok then
    p <- cursor ;; pthrow (parse_error "Improperly formatted guid!" p)
  else pret tt.

Definition ParseHalfByte : parser Z :=
  c <- peek ;;
  advance ;;;
  if (lit "0" <=? c) && (c <=? lit "9") then pret (u8 (c - lit "0"))
  else if (lit "a" <=? c) && (c <=? lit "f") then pret (u8 (c - lit "a" + 10))
  else if (lit "A" <=? c) && (c <=? lit "F") then pret (u8 (c - lit "A" + 10))
  else p <- cursor ;; pthrow (parse_error "Invalid hexadecimal character!" (p - 1)).

Definition ParseByte : parser Z :=
  first <- ParseHalfByte ;;
  second <- ParseHalfByte ;;
  pret (u8 (Z.lor (Z.shiftl first 4) second)).

Definition ParseUInt16 : parser Z :=
  upper <- ParseByte ;;
  lower <- ParseByte ;;
  pret (u16 (Z.lor (Z.shiftl upper 8) lower)).

Definition ParseUInt32 : parser Z :=
  high <- ParseUInt16 ;;
  low <- ParseUInt16 ;;
  pret (u32 (Z.lor (s32 (Z.shiftl high 16)) low)).

(* the initialiser of [parsed], evaluated left to right *)
Definition parse_fields : parser guid :=
  d1 <- ParseUInt32 ;;
  d2 <- (ParseChar (cast T (lit "-")) ;;; ParseUInt16) ;;
  d3 <- (ParseChar (cast T (lit "-")) ;;; ParseUInt16) ;;
  b0 <- (ParseChar (cast T (lit "-")) ;;; ParseByte) ;;
  b1 <- ParseByte ;;
  b2 <- (ParseChar (cast T (lit "-")) ;;; ParseByte) ;;
  b3 <- ParseByte ;;
  b4 <- ParseByte ;;
  b5 <- ParseByte ;;
  b6 <- ParseByte ;;
  b7 <- ParseByte ;;
  pret (Guid d1 d2 d3 [b0; b1; b2; b3; b4; b5; b6; b7]).

Definition parse : parser guid :=
  hasBraces <- TryParseChar (cast T (lit "{")) ;;
  parsed <- parse_fields ;;
  (if hasBraces : bool then ParseChar (cast T (lit "}")) else pret tt) ;;;
  ParseChar (cast T 0) ;;;
  pret parsed.
End WithT.
End guid_parser.

(* parse_guid(str): the cursor starts at the first code unit *)
Definition parse_guid (T : int_type) (str : list Z) : outcome guid :=
  match guid_parser.parse T str 0%nat with
  | Return (g, _) => Return g
  | Throw e => Throw e
  | Abort => Abort
  | OutOfBounds => OutOfBounds
  end.

(** ** Text codec: the formatter *)

Module formatted_guid.
Section WithT.
Variable T : int_type.

Definition HalfByteToChar (hb : Z) : outcome Z :=
  if 16 <=? hb then Throw (format_error "Half-byte out of range!")
  else Return (cast T (hb + (if hb <? 10 then lit "0" else lit "a" - 10))).

Definition High (ui32 : Z) : Z := u16 (Z.shiftr ui32 16).
Definition Low (ui32 : Z) : Z := u16 (Z.land ui32 0xffff).
Definition Upper (ui16 : Z) : Z := u8 (Z.shiftr ui16 8).
Definition Lower (ui16 : Z) : Z := u8 (Z.land ui16 0xff).
Definition First (ui8 : Z) : outcome Z := HalfByteToChar (u8 (Z.shiftr ui8 4)).
Definition Second (ui8 : Z) : outcome Z := HalfByteToChar (u8 (Z.land ui8 0xf)).

Definition value_initializer (g : guid) : list (outcome Z) :=
  [ Return (cast T (lit "{"));
    First (Upper (High (Data1 g)));
    Second (Upper (High (Data1 g)));
    First (Lower (High (Data1 g)));
    Second (Lower (High (Data1 g)));
    First (Upper (Low (Data1 g)));
    Second (Upper (Low (Data1 g)));
    First (Lower (Low (Data1 g)));
    Second (Lower (Low (Data1 g)));
    Return (cast T (lit "-"));
    First (Upper (Data2 g));
    Second (Upper (Data2 g));
    First (Lower (Data2 g));
    Second (Lower (Data2 g));
    Return (cast T (lit "-"));
    First (Upper (Data3 g));
    Second (Upper (Data3 g));
    First (Lower (Data3 g));
    Second (Lower (Data3 g));
    Return (cast T (lit "-"));
    First (Data4_at g 0);
    Second (Data4_at g 0);
    First (Data4_at g 1);
    Second (Data4_at g 1);
    Return (cast T (lit "-"));
    First (Data4_at g 2);
    Second (Data4_at g 2);
    First (Data4_at g 3);
    Second (Data4_at g 3);
    First (Data4_at g 4);
    Second (Data4_at g 4);
    First (Data4_at g 5);
    Second (Data4_at g 5);
    First (Data4_at g 6);
    Second (Data4_at g 6);
    First (Data4_at g 7);
    Second (Data4_at g 7);
    Return (cast T (lit "}"));
    Return (cast T 0) ].

(* the constructor; its result is the member [value] *)
Definition value (g : guid) : outcome (list Z) :=
  osequence (value_initializer g).
End WithT.
End formatted_guid.

(** ** Hash

    [std::hash<mrf::guid>] reads the sixteen bytes of the object.  The
    static assertions of the header fix the field offsets (0, 4, 6, 8); the
    byte order of the three integer fields is the host's. *)

Inductive byte_order : Set := little_endian | big_endian.

(* the bytes of an n-byte unsigned integer in memory *)
Fixpoint store_le (n : nat) (z : Z) : list Z :=
  match n with
  | O => []
  | S n' => u8 z :: store_le n' (Z.shiftr z 8)
  end.

Definition store (o : byte_order) (n : nat) (z : Z) : list Z :=
  match o with
  | little_endian => store_le n z
  | big_endian => rev (store_le n z)
  end.

(* reinterpret_cast<uint8_t const*>(&value) *)
Definition object_bytes (o : byte_order) (g : guid) : list Z :=
  store o 4 (Data1 g) ++ store o 2 (Data2 g) ++ store o 2 (Data3 g) ++
  [ Data4_at g 0; Data4_at g 1; Data4_at g 2; Data4_at g 3;
    Data4_at g 4; Data4_at g 5; Data4_at g 6; Data4_at g 7 ].

(* operator==(guid const&, guid const&) *)
Definition guid_eq (o : byte_order) (left right : guid) : bool :=
  memcmp (object_bytes o left) (object_bytes o right) 16 =? 0.

(* the two specialisations of guid_hash_traits_impl<sizeof(size_t)> *)
Inductive sizeof_size_t : Set := sizeof_4 | sizeof_8.

Definition size_t (w : sizeof_size_t) : int_type :=
  match w with
  | sizeof_4 => IntType 32 false
  | sizeof_8 => IntType 64 false
  end.

Definition fnv_offset_basis (w : sizeof_size_t) : Z :=
  match w with
  | sizeof_8 => 14695981039346656037
  | sizeof_4 => 2166136261
  end.

Definition fnv_prime (w : sizeof_size_t) : Z :=
  match w with
  | sizeof_8 => 1099511628211
  | sizeof_4 => 16777619
  end.

(* the for loop of operator(): [todo] iterations remain, [next] is the index *)
Fixpoint hash_loop (w : sizeof_size_t) (buffer : list Z) (todo next : nat)
  (result : Z) : Z :=
  match todo with
  | O => result
  | S todo' =>
      let result := cast (size_t w) (Z.lxor result (at_ buffer next)) in
      let result := cast (size_t w) (result * fnv_prime w) in
      hash_loop w buffer todo' (S next) result
  end.

(* std::hash<mrf::guid>::operator() *)
Definition hash (w : sizeof_size_t) (o : byte_order) (value : guid) : Z :=
  hash_loop w (object_bytes o value) 16 0 (fnv_offset_basis w).

(** ** nanocom.h: hresult *)

Definition hresult : int_type := int32_t.

Definition failure_from_win32 (code : Z) : outcome Z :=
  if code =? 0 then Throw invalid_win32_error_code
  else Return (cast hresult (Z.lor 0x80070000 code)).

Definition success_ok : Z := 0.
Definition failure_no_interface : Z := cast hresult 0x80004002.
Definition failure_unexpected : Z := cast hresult 0x8000ffff.
Definition failure_out_of_memory : outcome Z := failure_from_win32 14.
Definition failure_invalid_argument : outcome Z := failure_from_win32 87.
Definition failure_not_found : outcome Z := failure_from_win32 1168.

Definition is_success (result : Z) : bool := 0 <=? result.

Definition is_failure (result : Z) : bool := negb (is_success result).

(* the constructor of struct hresult_failure *)
Definition make_hresult_failure (result : Z) : outcome exn :=
  if negb (is_failure result) then Abort
  else Return (hresult_failure result).

Definition throw_if_failure (result : Z) : outcome unit :=
  if is_failure result then
    obind (make_hresult_failure result) (fun e => Throw e)
  else Return tt.

(** ** Reference notions the properties are stated against *)

(* the field tuple (d1, d2, d3, d4[0..8]) *)
Definition guid_tuple (g : guid) : list Z :=
  Data1 g :: Data2 g :: Data3 g :: Data4 g.

(* lexicographic order on sequences of integers *)
Fixpoint lex_lt (a b : list Z) : Prop :=
  match a, b with
  | [], [] => False
  | [], _ :: _ => True
  | _ :: _, [] => False
  | x :: a', y :: b' => x < y \/ (x = y /\ lex_lt a' b')
  end.

(* FNV-1a as a fold: xor the byte in, then multiply by the prime *)
Definition fnv1a (w : sizeof_size_t) (bytes : list Z) : Z :=
  fold_left (fun h b => (Z.lxor h b * fnv_prime w) mod 2 ^ bits (size_t w))
            bytes (fnv_offset_basis w).

(* the grammar of the body: hex8 - hex4 - hex4 - hex4 - hex12 *)
Inductive slot : Set := hex_slot | dash_slot.

Definition body_layout : list slot :=
  repeat hex_slot 8 ++ [dash_slot] ++ repeat hex_slot 4 ++ [dash_slot] ++
  repeat hex_slot 4 ++ [dash_slot] ++ repeat hex_slot 4 ++ [dash_slot] ++
  repeat hex_slot 12.

Definition is_hex_digit (c : Z) : bool :=
  ((lit "0" <=? c) && (c <=? lit "9")) ||
  ((lit "a" <=? c) && (c <=? lit "f")) ||
  ((lit "A" <=? c) && (c <=? lit "F")).

Definition slot_matches (s : slot) (c : Z) : bool :=
  match s with
  | hex_slot => is_hex_digit c
  | dash_slot => c =? lit "-"
  end.

(* the code units [cs] start with units that fill the slots [l] *)
Fixpoint matches_layout (l : list slot) (cs : list Z) : bool :=
  match l, cs with
  | [], _ => true
  | s :: l', c :: cs' => slot_matches s c && matches_layout l' cs'
  | _ :: _, [] => false
  end.

(* 1 when the text opens with a brace, else 0 *)
Definition brace_offset (str : list Z) : nat :=
  match str with
  | c :: _ => if c =? lit "{" then 1%nat else 0%nat
  | [] => 0%nat
  end.

(* guid := '{' body '}' NUL | body NUL *)
Definition well_formed (str : list Z) : bool :=
  let b := brace_offset str in
  matches_layout body_layout (skipn b str) &&
  match b with
  | O => match nth_error str 36 with Some c => c =? 0 | None => false end
  | S _ =>
      match nth_error str 37, nth_error str 38 with
      | Some c, Some z => (c =? lit "}") && (z =? 0)
      | _, _ => false
      end
  end.

Definition to_upper_hex (c : Z) : Z :=
  if (lit "a" <=? c) && (c <=? lit "f") then c - lit "a" + lit "A" else c.

Definition to_lower_hex (c : Z) : Z :=
  if (lit "A" <=? c) && (c <=? lit "F") then c - lit "A" + lit "a" else c.

(* a C string literal as a buffer, terminator appended *)
Definition c_str (s : string) : list Z :=
  map lit (list_ascii_of_string s) ++ [0].

(* {00112233-4455-6677-8899-aabbccddeeff}, the example of the header *)
Definition example_guid : guid :=
  Guid 0x00112233 0x4455 0x6677 [0x88; 0x99; 0xAA; 0xBB; 0xCC; 0xDD; 0xEE; 0xFF].

(** ** guid.h: inequality and to_string *)

(* operator!=(guid const&, guid const&) *)
Definition guid_ne (o : byte_order) (left right : guid) : bool :=
  negb (guid_eq o left right).

(* the std::basic_string<T> built from a pointer to T: the code units in
   front of the first terminator *)
Fixpoint basic_string (buf : list Z) : outcome (list Z) :=
  match buf with
  | [] => OutOfBounds
  | c :: rest =>
      if c =? 0 then Return []
      else obind (basic_string rest) (fun s => Return (c :: s))
  end.

(* to_string<T>(g), with T::value_type the element type *)
Definition to_string (T : int_type) (g : guid) : outcome (list Z) :=
  obind (formatted_guid.value T g) basic_string.

(* std::basic_string::c_str() *)
Definition basic_string_c_str (s : list Z) : list Z := s ++ [0].

(** ** guid.h: create_guid, the branch for hosts other than Windows

    The operating system enters as what its calls gave: whether open
    succeeded, the bytes read put in guidString (their number is what read
    returned) and whether close succeeded.  The function is noexcept, so a
    parse_error leaving parse_guid terminates the process. *)

Definition newline : Z := 10.

Definition create_guid (open_ok : bool) (bytes_read : list Z) (close_ok : bool)
  : outcome guid :=
  if negb open_ok then Abort
  else if negb (length bytes_read =? 37)%nat then Abort
  else if negb (nth 36 bytes_read 0 =? newline) then Abort
  else
    let guidString := firstn 36 bytes_read ++ [0] in
    if negb close_ok then Abort
    else match parse_guid char guidString with
         | Throw _ => Abort
         | r => r
         end.

(** ** nanocom.h: the failure codes and the exception bridge *)

Definition failure_pending : Z := cast hresult 0x8000000a.
Definition failure_not_implemented : Z := cast hresult 0x80004001.
Definition failure_abort : Z := cast hresult 0x80004004.
Definition failure_unspecified : Z := cast hresult 0x80004005.
Definition failure_access_denied : outcome Z := failure_from_win32 5.
Definition failure_invalid_handle : outcome Z := failure_from_win32 6.
Definition failure_invalid_data : outcome Z := failure_from_win32 13.
Definition failure_not_ready : outcome Z := failure_from_win32 21.
Definition failure_bad_command : outcome Z := failure_from_win32 22.
Definition failure_not_supported : outcome Z := failure_from_win32 50.
Definition failure_insufficient_buffer : outcome Z := failure_from_win32 122.
Definition failure_more_data : outcome Z := failure_from_win32 234.
Definition failure_no_more_items : outcome Z := failure_from_win32 259.
Definition failure_operation_aborted : outcome Z := failure_from_win32 995.
Definition failure_io_pending : outcome Z := failure_from_win32 997.
Definition failure_cancelled : outcome Z := failure_from_win32 1223.
Definition failure_driver_process_terminated : outcome Z := failure_from_win32 1291.
Definition failure_device_removed : outcome Z := failure_from_win32 1617.
Definition failure_not_connected : outcome Z := failure_from_win32 2250.

(* the failure_ constants of the header, in the order they are declared *)
Definition failure_codes : list (outcome Z) :=
  [ Return failure_pending; Return failure_not_implemented;
    Return failure_no_interface; Return failure_abort;
    Return failure_unspecified; Return failure_unexpected;
    failure_access_denied; failure_invalid_handle; failure_invalid_data;
    failure_out_of_memory; failure_not_ready; failure_bad_command;
    failure_not_supported; failure_invalid_argument;
    failure_insufficient_buffer; failure_more_data; failure_no_more_items;
    failure_operation_aborted; failure_io_pending; failure_not_found;
    failure_cancelled; failure_driver_process_terminated;
    failure_device_removed; failure_not_connected ].

(* what can be in flight when current_exception_to_hresult runs: an
   exception of the two headers, one of the standard exceptions the handlers
   name (or a class derived from it), or anything else *)
Inductive in_flight : Set :=
| thrown (e : exn)
| std_bad_alloc
| std_invalid_argument
| std_out_of_range
| std_bad_function_call
| std_bad_cast
| std_bad_exception
| unknown_exception.

(* details::unexpected_failure_fallback *)
Definition unexpected_failure_fallback : outcome Z := Return failure_unexpected.

(* [fallback] is the outcome of calling the fallback; the function is
   noexcept, so an exception leaving the fallback, or a rethrow with nothing
   in flight, terminates the process *)
Definition current_exception_to_hresult (fallback : outcome Z)
  (ex : option in_flight) : outcome Z :=
  match ex with
  | None => Abort
  | Some (thrown (hresult_failure code)) => Return code
  | Some std_bad_alloc => failure_out_of_memory
  | Some std_invalid_argument => failure_invalid_argument
  | Some std_out_of_range => failure_not_found
  | Some std_bad_function_call => Return failure_not_implemented
  | Some std_bad_cast => Return failure_no_interface
  | Some std_bad_exception => Return failure_unexpected
  | Some _ =>
      match fallback with
      | Throw _ => Abort
      | r => r
      end
  end.

(** ** nanocom.h: interface ids *)

Inductive interface : Set := IUnknown | IWeakReference | IWeakReferenceSource.

(* the literals handed to MRFOUNDATION_INTERFACE_NS *)
Definition iid_literal (i : interface) : string :=
  match i with
  | IUnknown => "{00000000-0000-0000-C000-000000000046}"
  | IWeakReference => "{00000037-0000-0000-C000-000000000046}"
  | IWeakReferenceSource => "{00000038-0000-0000-C000-000000000046}"
  end.

(* details::iid_v<T>, as MRFOUNDATION_ASSOCIATE_IID specialises it *)
Definition iid_v (i : interface) : outcome guid :=
  parse_guid char (c_str (iid_literal i)).

Definition iid_of (i : interface) : outcome guid := iid_v i.

(** ** Notions used to reason about the text codec *)

(* the lowercase hexadecimal digit of a nibble, as a code unit of T *)
Definition digit (T : int_type) (n : Z) : Z :=
  cast T (n + (if n <? 10 then lit "0" else lit "a" - 10)).

(* the two digits of a byte, high nibble first *)
Definition byte_text (T : int_type) (b : Z) : list Z :=
  [digit T (b / 16); digit T (b mod 16)].

Definition uint16_text (T : int_type) (w : Z) : list Z :=
  byte_text T (w / 256) ++ byte_text T (w mod 256).

Definition uint32_text (T : int_type) (d : Z) : list Z :=
  uint16_text T (d / 65536) ++ uint16_text T (d mod 65536).

(* {xxxxxxxx-xxxx-xxxx-xxxx-xxxxxxxxxxxx} and the terminator *)
Definition guid_text (T : int_type) (g : guid) : list Z :=
  [cast T (lit "{")] ++ uint32_text T (Data1 g) ++
  [cast T (lit "-")] ++ uint16_text T (Data2 g) ++
  [cast T (lit "-")] ++ uint16_text T (Data3 g) ++
  [cast T (lit "-")] ++ byte_text T (Data4_at g 0) ++ byte_text T (Data4_at g 1) ++
  [cast T (lit "-")] ++ byte_text T (Data4_at g 2) ++ byte_text T (Data4_at g 3) ++
  byte_text T (Data4_at g 4) ++ byte_text T (Data4_at g 5) ++
  byte_text T (Data4_at g 6) ++ byte_text T (Data4_at g 7) ++
  [cast T (lit "}")] ++ [cast T 0].

(* the value of a hexadecimal digit *)
Definition hex_value (c : Z) : Z :=
  if c <=? lit "9" then c - lit "0"
  else if lit "a" <=? c then c - lit "a" + 10
  else c - lit "A" + 10.

(* the parser [m], started anywhere in front of the code units [l], reads
   exactly [l] and returns [v] *)
Definition consumes {A} (m : parser A) (l : list Z) (v : A) : Prop :=
  forall pre post,
    m (pre ++ l ++ post) (length pre) = Return (v, (length pre + length l)%nat).

(* what the parser does at one code unit *)
Inductive action : Set := read_hex | expect (c : Z).

(* the cursor after the actions, or the failure of the first that fails *)
Fixpoint scan (acts : list action) (buf : list Z) (p : nat) : outcome nat :=
  match acts with
  | [] => Return p
  | a :: acts' =>
      match nth_error buf p with
      | None => OutOfBounds
      | Some c =>
          match a with
          | read_hex =>
              if is_hex_digit c then scan acts' buf (S p)
              else Throw (parse_error "Invalid hexadecimal character!" p)
          | expect x =>
              if c =? x then scan acts' buf (S p)
              else Throw (parse_error "Improperly formatted guid!" p)
          end
      end
  end.

(* the parser [m] succeeds and fails as the actions [acts] do *)
Definition follows {A} (acts : list action) (m : parser A) : Prop :=
  forall buf p,
    match scan acts buf p with
    | Return q => exists v, m buf p = Return (v, q)
    | Throw e => m buf p = Throw e
    | Abort => m buf p = Abort
    | OutOfBounds => m buf p = OutOfBounds
    end.

Definition action_of_slot (s : slot) : action :=
  match s with
  | hex_slot => read_hex
  | dash_slot => expect (lit "-")
  end.

(* the parser [m] does not tell a buffer from its image under [f] *)
Definition blind_to {A} (f : Z -> Z) (m : parser A) : Prop :=
  forall buf p, m (map f buf) p = m buf p.

(* [f] may change the case of hexadecimal letters and nothing else *)
Definition recases (f : Z -> Z) : Prop :=
  (forall x, is_hex_digit (f x) = is_hex_digit x) /\
  (forall x, is_hex_digit x = true -> hex_value (f x) = hex_value x) /\
  (forall x, is_hex_digit x = false -> f x = x).

(* two guids that differ in the low two bytes of Data1 *)
Definition Data1_low : guid := Guid 1 0 0 [0; 0; 0; 0; 0; 0; 0; 0].
Definition Data1_high : guid := Guid 256 0 0 [0; 0; 0; 0; 0; 0; 0; 0].

(* what the parser does after the body: the closing brace when one was
   opened, then the terminator *)
Definition closing_actions (b : nat) : list action :=
  match b with
  | O => [expect 0]
  | S _ => [expect (lit "}"); expect 0]
  end.

(* everything the parser does after the optional opening brace *)
Definition parse_actions (str : list Z) : list action :=
  map action_of_slot body_layout ++ closing_actions (brace_offset str).

(* the message of the parse_error thrown at a slot *)
Definition slot_message (s : slot) : string :=
  match s with
  | hex_slot => "Invalid hexadecimal character!"
  | dash_slot => "Improperly formatted guid!"
  end.

(* an action that cannot step over a terminator *)
Definition stops_at_terminator (a : action) : Prop :=
  match a with
  | read_hex => True
  | expect x => x <> 0
  end.

(** * Properties *)

(** ** Integer conversions *)

Lemma u8_small z : 0 <= z < 256 -> u8 z = z.
Proof. intros H. apply Z.mod_small. exact H. Qed.

Lemma u16_small z : 0 <= z < 65536 -> u16 z = z.
Proof. intros H. apply Z.mod_small. exact H. Qed.

Lemma u32_small z : 0 <= z < 4294967296 -> u32 z = z.
Proof. intros H. apply Z.mod_small. exact H. Qed.

Lemma u8_range z : 0 <= u8 z < 256.
Proof. apply Z.mod_pos_bound. reflexivity. Qed.

Lemma u16_range z : 0 <= u16 z < 65536.
Proof. apply Z.mod_pos_bound. reflexivity. Qed.

Lemma valid_Data4_eq g :
  valid_guid g ->
  exists b0 b1 b2 b3 b4 b5 b6 b7,
    Data4 g = [b0; b1; b2; b3; b4; b5; b6; b7] /\
    Forall byte_ok [b0; b1; b2; b3; b4; b5; b6; b7].
Proof.
  intros [_ _ _ Hlen Hall]. destruct (Data4 g) as [|b0 [|b1 [|b2 [|b3 [|b4 [|b5 [|b6 [|b7 [|]]]]]]]]];
    try discriminate Hlen.
  exists b0, b1, b2, b3, b4, b5, b6, b7. split; [reflexivity | exact Hall].
Qed.

Lemma Data4_rebuild g :
  valid_guid g ->
  [ Data4_at g 0; Data4_at g 1; Data4_at g 2; Data4_at g 3;
    Data4_at g 4; Data4_at g 5; Data4_at g 6; Data4_at g 7 ] = Data4 g.
Proof.
  intros H. destruct (valid_Data4_eq g H) as (b0 & b1 & b2 & b3 & b4 & b5 & b6 & b7 & E & _).
  unfold Data4_at. rewrite E. reflexivity.
Qed.

(** ** Byte codec *)

Lemma be32_roundtrip d :
  0 <= d < 2 ^ 32 ->
  u32 (u8 (Z.shiftr d 24) * 0x01000000 + u8 (Z.shiftr d 16) * 0x00010000
       + u8 (Z.shiftr d 8) * 0x00000100 + u8 d) = d.
Proof.
  intros H. unfold u32, u8, cast, uint32_t, uint8_t, wrap_unsigned; cbn [is_signed bits].
  rewrite !Z.shiftr_div_pow2 by lia.
  change (2 ^ 32) with 4294967296 in *. change (2 ^ 24) with 16777216.
  change (2 ^ 16) with 65536. change (2 ^ 8) with 256.
  Z.div_mod_to_equations. lia.
Qed.

Lemma be16_roundtrip d :
  0 <= d < 2 ^ 16 ->
  u16 (u32 (u8 (Z.shiftr d 8) * 0x0100 + u8 d)) = d.
Proof.
  intros H. unfold u16, u32, u8, cast, uint16_t, uint32_t, uint8_t, wrap_unsigned;
    cbn [is_signed bits].
  rewrite !Z.shiftr_div_pow2 by lia.
  change (2 ^ 32) with 4294967296 in *. change (2 ^ 16) with 65536 in *.
  change (2 ^ 8) with 256.
  Z.div_mod_to_equations. lia.
Qed.

Lemma decode_encode_variant1 g :
  valid_guid g -> decode_guid_from_variant1 (encode_guid_as_variant1 g) = g.
Proof.
  intros H. destruct H as [H1 H2 H3 H4 H5] eqn:E. clear E.
  unfold decode_guid_from_variant1, encode_guid_as_variant1, at_. cbn [nth].
  rewrite be32_roundtrip, !be16_roundtrip by assumption.
  rewrite Data4_rebuild by (constructor; assumption).
  destruct g; reflexivity.
Qed.

Lemma decode_encode_variant2 g :
  valid_guid g -> decode_guid_from_variant2 (encode_guid_as_variant2 g) = g.
Proof.
  intros H. destruct H as [H1 H2 H3 H4 H5] eqn:E. clear E.
  unfold decode_guid_from_variant2, encode_guid_as_variant2, at_. cbn [nth].
  replace (u8 (Data1 g) + u8 (Z.shiftr (Data1 g) 8) * 256
           + u8 (Z.shiftr (Data1 g) 16) * 65536 + u8 (Z.shiftr (Data1 g) 24) * 16777216)
    with (u8 (Z.shiftr (Data1 g) 24) * 0x01000000 + u8 (Z.shiftr (Data1 g) 16) * 0x00010000
          + u8 (Z.shiftr (Data1 g) 8) * 0x00000100 + u8 (Data1 g)) by lia.
  replace (u8 (Data2 g) + u8 (Z.shiftr (Data2 g) 8) * 256)
    with (u8 (Z.shiftr (Data2 g) 8) * 0x0100 + u8 (Data2 g)) by lia.
  replace (u8 (Data3 g) + u8 (Z.shiftr (Data3 g) 8) * 256)
    with (u8 (Z.shiftr (Data3 g) 8) * 0x0100 + u8 (Data3 g)) by lia.
  rewrite be32_roundtrip, !be16_roundtrip by assumption.
  rewrite Data4_rebuild by (constructor; assumption).
  destruct g; reflexivity.
Qed.

(** C2: for each of the two byte encodings, decoding the sixteen bytes the
    encoder produced for a guid gives that guid back. *)
Theorem byte_codec_roundtrip (g : guid) :
  valid_guid g ->
  decode_guid_from_variant1 (encode_guid_as_variant1 g) = g /\
  decode_guid_from_variant2 (encode_guid_as_variant2 g) = g.
Proof.
  intros H. split.
  - apply decode_encode_variant1. exact H.
  - apply decode_encode_variant2. exact H.
Qed.

Lemma example_guid_valid : valid_guid example_guid.
Proof.
  constructor; cbn; try lia.
  repeat constructor; unfold byte_ok; lia.
Qed.

Lemma byte_codec_roundtrip_witness :
  valid_guid example_guid /\
  decode_guid_from_variant1 (encode_guid_as_variant1 example_guid) = example_guid /\
  decode_guid_from_variant2 (encode_guid_as_variant2 example_guid) = example_guid.
Proof.
  split.
  - exact example_guid_valid.
  - apply (byte_codec_roundtrip example_guid). exact example_guid_valid.
Defined.

(** C3: the guid {00112233-4455-6677-8899-aabbccddeeff} encodes to
    00 11 22 33 44 55 66 77 88 .. ff under variant 1 (big-endian fields) and
    to 33 22 11 00 55 44 77 66 88 .. ff under variant 2 (little-endian
    fields); the eight bytes of Data4 are copied as they are in both. *)
Theorem encode_example_bytes :
  encode_guid_as_variant1
    (Guid 0x00112233 0x4455 0x6677 [0x88; 0x99; 0xAA; 0xBB; 0xCC; 0xDD; 0xEE; 0xFF])
  = [0x00; 0x11; 0x22; 0x33; 0x44; 0x55; 0x66; 0x77;
     0x88; 0x99; 0xAA; 0xBB; 0xCC; 0xDD; 0xEE; 0xFF] /\
  encode_guid_as_variant2
    (Guid 0x00112233 0x4455 0x6677 [0x88; 0x99; 0xAA; 0xBB; 0xCC; 0xDD; 0xEE; 0xFF])
  = [0x33; 0x22; 0x11; 0x00; 0x55; 0x44; 0x77; 0x66;
     0x88; 0x99; 0xAA; 0xBB; 0xCC; 0xDD; 0xEE; 0xFF].
Proof. split; reflexivity. Qed.

(** ** Ordering *)

Lemma memcmp_lex (n : nat) : forall l r,
  length l = n -> length r = n -> Forall byte_ok l -> Forall byte_ok r ->
  ((memcmp l r n <? 0) = true <-> lex_lt l r).
Proof.
  induction n as [|n IH]; intros l r Hl Hr Fl Fr.
  - destruct l; [|discriminate]. destruct r; [|discriminate]. cbn. split; [discriminate | tauto].
  - destruct l as [|x l]; [discriminate|]. destruct r as [|y r]; [discriminate|].
    inversion Fl as [|? ? Hx Fl']; subst. inversion Fr as [|? ? Hy Fr']; subst.
    cbn [memcmp hd tl lex_lt]. rewrite (u8_small x Hx), (u8_small y Hy).
    destruct (Z.ltb_spec x y) as [Hxy|Hxy].
    + split; [intros _; left; exact Hxy | reflexivity].
    + destruct (Z.ltb_spec y x) as [Hyx|Hyx].
      * split; [discriminate | intros [H|[H _]]; lia].
      * rewrite IH by (cbn in Hl, Hr; try lia; assumption).
        split; [intros H; right; split; [lia | exact H] | intros [H|[_ H]]; [lia | exact H]].
Qed.

(** C4: [a < b] holds exactly when the tuple (Data1, Data2, Data3,
    Data4[0..8]) of [a] is lexicographically smaller than that of [b], the
    fields compared as unsigned integers. *)
Theorem guid_lt_lexicographic (a b : guid) :
  valid_guid a -> valid_guid b ->
  (guid_lt a b = true <-> lex_lt (guid_tuple a) (guid_tuple b)).
Proof.
  intros Ha Hb.
  pose proof (memcmp_lex 8 (Data4 a) (Data4 b)
                (valid_Data4_size a Ha) (valid_Data4_size b Hb)
                (valid_Data4 a Ha) (valid_Data4 b Hb)) as Hm.
  unfold guid_lt, guid_tuple. cbn [lex_lt].
  destruct (Z.ltb_spec (Data1 a) (Data1 b)) as [H1|H1]; [split; [intros _; left; exact H1 | reflexivity]|].
  destruct (Z.eqb_spec (Data1 a) (Data1 b)) as [E1|E1];
    [|split; [discriminate | intros [H|[H _]]; lia]].
  destruct (Z.ltb_spec (Data2 a) (Data2 b)) as [H2|H2];
    [split; [intros _; right; split; [exact E1 | left; exact H2] | reflexivity]|].
  destruct (Z.eqb_spec (Data2 a) (Data2 b)) as [E2|E2];
    [|split; [discriminate | intros [H|[_ [H|[H _]]]]; lia]].
  destruct (Z.ltb_spec (Data3 a) (Data3 b)) as [H3|H3];
    [split; [intros _; right; split; [exact E1 | right; split; [exact E2 | left; exact H3]]
            | reflexivity]|].
  destruct (Z.eqb_spec (Data3 a) (Data3 b)) as [E3|E3];
    [|split; [discriminate | intros [H|[_ [H|[_ [H|[H _]]]]]]; lia]].
  rewrite Hm. split.
  - intros H. right; split; [exact E1|]. right; split; [exact E2|]. right; split; [exact E3|exact H].
  - intros [H|[_ [H|[_ [H|[_ H]]]]]]; try lia. exact H.
Qed.

Lemma guid_lt_lexicographic_witness :
  valid_guid guid_null /\ valid_guid example_guid /\
  (guid_lt guid_null example_guid = true <->
   lex_lt (guid_tuple guid_null) (guid_tuple example_guid)).
Proof.
  assert (Hn : valid_guid guid_null).
  { constructor; cbn; try lia. repeat constructor; unfold byte_ok; lia. }
  split; [exact Hn|]. split; [exact example_guid_valid|].
  apply (guid_lt_lexicographic guid_null example_guid Hn example_guid_valid).
Defined.

(** ** Bitwise recombination *)

Lemma land_shiftl_small hi lo k :
  0 <= k -> 0 <= lo < 2 ^ k -> Z.land (Z.shiftl hi k) lo = 0.
Proof.
  intros Hk Hlo. apply Z.bits_inj'. intros n Hn.
  rewrite Z.land_spec, Z.bits_0.
  destruct (Z.lt_ge_cases n k) as [H|H].
  - rewrite Z.shiftl_spec_low by exact H. reflexivity.
  - rewrite <- (Z.mod_small lo (2 ^ k)) by exact Hlo.
    rewrite Z.mod_pow2_bits_high by lia. apply andb_false_r.
Qed.

Lemma lor_shiftl_add hi lo k :
  0 <= k -> 0 <= lo < 2 ^ k -> Z.lor (Z.shiftl hi k) lo = hi * 2 ^ k + lo.
Proof.
  intros Hk Hlo.
  rewrite <- Z.lxor_lor by (apply land_shiftl_small; assumption).
  rewrite <- Z.add_nocarry_lxor by (apply land_shiftl_small; assumption).
  rewrite Z.shiftl_mul_pow2 by exact Hk. reflexivity.
Qed.

(** ** hresult *)

Lemma is_failure_negative r : is_failure r = true <-> r < 0.
Proof.
  unfold is_failure, is_success. destruct (Z.leb_spec 0 r); cbn; split; intros; try lia; discriminate.
Qed.

Lemma is_success_nonnegative r : is_success r = true <-> 0 <= r.
Proof. unfold is_success. apply Z.leb_le. Qed.

(** C8: a non-zero 16-bit OS error [e] is encoded as [0x80070000 | e] read
    as a signed 32-bit hresult: the high bit is set and the value is
    negative; failure_invalid_argument, which is failure_from_win32(87), is
    0x80070057. *)
Theorem failure_from_win32_encoding (e : Z) :
  0 < e < 2 ^ 16 ->
  failure_from_win32 e = Return (Z.lor 0x80070000 e - 2 ^ 32) /\
  Z.lor 0x80070000 e - 2 ^ 32 < 0 /\
  Z.testbit (Z.lor 0x80070000 e) 31 = true /\
  - 2 ^ 31 <= Z.lor 0x80070000 e - 2 ^ 32 /\
  failure_invalid_argument = Return (0x80070057 - 2 ^ 32).
Proof.
  intros He.
  assert (Hlor : Z.lor 0x80070000 e = 0x80070000 + e).
  { change 0x80070000 with (Z.shiftl 0x8007 16) at 1.
    rewrite lor_shiftl_add by lia. reflexivity. }
  repeat split.
  - unfold failure_from_win32. destruct (Z.eqb_spec e 0) as [E|_]; [lia|].
    f_equal. rewrite Hlor.
    unfold cast, hresult, int32_t, wrap_signed; cbn [is_signed bits].
    change (2 ^ (32 - 1)) with 2147483648. change (2 ^ 32) with 4294967296 in *.
    change (2 ^ 16) with 65536 in *. Z.div_mod_to_equations. lia.
  - rewrite Hlor. change (2 ^ 32) with 4294967296. change (2 ^ 16) with 65536 in *. lia.
  - rewrite Z.lor_spec. reflexivity.
  - rewrite Hlor. change (2 ^ 32) with 4294967296. change (2 ^ 31) with 2147483648. lia.
Qed.

Lemma failure_from_win32_encoding_witness :
  0 < 87 < 2 ^ 16 /\
  failure_from_win32 87 = Return (Z.lor 0x80070000 87 - 2 ^ 32) /\
  Z.lor 0x80070000 87 - 2 ^ 32 < 0 /\
  Z.testbit (Z.lor 0x80070000 87) 31 = true /\
  - 2 ^ 31 <= Z.lor 0x80070000 87 - 2 ^ 32 /\
  failure_invalid_argument = Return (0x80070057 - 2 ^ 32).
Proof.
  assert (H : 0 < 87 < 2 ^ 16) by (split; reflexivity).
  split; [exact H | exact (failure_from_win32_encoding 87 H)].
Defined.

(** C9: throw_if_failure(r) throws an hresult_failure carrying exactly [r]
    if and only if is_failure(r), that is r < 0; when is_success(r), that is
    r >= 0, it returns normally. *)
Theorem throw_if_failure_spec (r : Z) :
  (throw_if_failure r = Throw (hresult_failure r) <-> is_failure r = true) /\
  (is_failure r = true <-> r < 0) /\
  (is_success r = true <-> 0 <= r) /\
  (is_success r = true -> throw_if_failure r = Return tt).
Proof.
  split; [|split; [apply is_failure_negative | split; [apply is_success_nonnegative|]]].
  - unfold throw_if_failure, make_hresult_failure.
    destruct (is_failure r); cbn; split; intros H; try reflexivity; discriminate H.
  - unfold throw_if_failure, is_failure. intros ->. reflexivity.
Qed.

Lemma throw_if_failure_spec_witness :
  is_success 0 = true /\ throw_if_failure 0 = Return tt /\
  is_failure (-2147024882) = true /\
  throw_if_failure (-2147024882) = Throw (hresult_failure (-2147024882)).
Proof.
  split; [reflexivity|].
  split; [apply (proj2 (proj2 (proj2 (throw_if_failure_spec 0)))); reflexivity|].
  split; [reflexivity|].
  apply (proj1 (throw_if_failure_spec (-2147024882))). reflexivity.
Defined.

(** ** Hash *)

Lemma hash_loop_fold w buffer : forall todo next result,
  hash_loop w buffer todo next result =
  fold_left (fun h b => (Z.lxor h b * fnv_prime w) mod 2 ^ bits (size_t w))
            (map (at_ buffer) (seq next todo)) result.
Proof.
  induction todo as [|todo IH]; intros next result; [reflexivity|].
  cbn [hash_loop seq map fold_left]. rewrite IH. f_equal.
  assert (U : forall z, cast (size_t w) z = z mod 2 ^ bits (size_t w))
    by (intros z; destruct w; reflexivity).
  rewrite !U. apply Z.mul_mod_idemp_l. destruct w; discriminate.
Qed.

Lemma object_bytes_length o g : length (object_bytes o g) = 16%nat.
Proof. destruct o; reflexivity. Qed.

Lemma map_at_seq (l : list Z) : map (at_ l) (seq 0 (length l)) = l.
Proof.
  apply nth_ext with (d := 0) (d' := 0).
  - rewrite length_map, length_seq. reflexivity.
  - intros n Hn. rewrite length_map, length_seq in Hn.
    rewrite nth_indep with (d' := at_ l 0%nat) by (rewrite length_map, length_seq; exact Hn).
    rewrite map_nth. rewrite seq_nth by exact Hn. reflexivity.
Qed.

Lemma memcmp_zero_u8 (n : nat) : forall l r,
  length l = n -> length r = n -> memcmp l r n = 0 -> map u8 l = map u8 r.
Proof.
  induction n as [|n IH]; intros l r Hl Hr H.
  - destruct l; [|discriminate]. destruct r; [|discriminate]. reflexivity.
  - destruct l as [|x l]; [discriminate|]. destruct r as [|y r]; [discriminate|].
    cbn [memcmp hd tl] in H. cbn [map].
    destruct (Z.ltb_spec (u8 x) (u8 y)); [discriminate|].
    destruct (Z.ltb_spec (u8 y) (u8 x)); [discriminate|].
    f_equal; [lia|]. apply IH; cbn in Hl, Hr; [lia | lia | exact H].
Qed.

Lemma object_bytes_variant o g :
  object_bytes o g =
  match o with
  | little_endian => encode_guid_as_variant2 g
  | big_endian => encode_guid_as_variant1 g
  end.
Proof.
  destruct o; unfold object_bytes, store; cbn [store_le rev app];
    rewrite ?Z.shiftr_shiftr by lia; reflexivity.
Qed.

Lemma object_bytes_ok o g : valid_guid g -> Forall byte_ok (object_bytes o g).
Proof.
  intros H. destruct (valid_Data4_eq g H) as (b0 & b1 & b2 & b3 & b4 & b5 & b6 & b7 & E & F).
  rewrite object_bytes_variant.
  destruct o; unfold encode_guid_as_variant1, encode_guid_as_variant2, Data4_at;
    rewrite E; cbn [nth];
    repeat (apply Forall_cons; [apply u8_range|]); exact F.
Qed.

Lemma map_u8_ok l : Forall byte_ok l -> map u8 l = l.
Proof.
  induction 1 as [|x l Hx _ IH]; [reflexivity|].
  cbn [map]. rewrite IH, (u8_small x Hx). reflexivity.
Qed.

(* on guids whose fields are in range, operator== is structural equality *)
Lemma guid_eq_true o a b :
  valid_guid a -> valid_guid b -> guid_eq o a b = true -> a = b.
Proof.
  intros Ha Hb H. unfold guid_eq in H. apply Z.eqb_eq in H.
  apply memcmp_zero_u8 in H; try apply object_bytes_length.
  rewrite !map_u8_ok in H by (apply object_bytes_ok; assumption).
  rewrite !object_bytes_variant in H.
  destruct o.
  - rewrite <- (decode_encode_variant2 a Ha), <- (decode_encode_variant2 b Hb), H. reflexivity.
  - rewrite <- (decode_encode_variant1 a Ha), <- (decode_encode_variant1 b Hb), H. reflexivity.
Qed.

(** C7: the hash of a guid is the FNV-1a fold over the sixteen bytes of the
    object, from the offset basis and with the prime of the width of size_t
    (14695981039346656037 and 1099511628211 for 64 bits, 2166136261 and
    16777619 for 32 bits), each byte xored in and the result multiplied by
    the prime; hence guids that compare equal have equal hashes. *)
Theorem hash_is_fnv1a (w : sizeof_size_t) (o : byte_order) (a b : guid) :
  length (object_bytes o a) = 16%nat /\
  hash w o a = fnv1a w (object_bytes o a) /\
  fnv1a sizeof_8 (object_bytes o a) =
    fold_left (fun h x => (Z.lxor h x * 1099511628211) mod 2 ^ 64)
              (object_bytes o a) 14695981039346656037 /\
  fnv1a sizeof_4 (object_bytes o a) =
    fold_left (fun h x => (Z.lxor h x * 16777619) mod 2 ^ 32)
              (object_bytes o a) 2166136261 /\
  (valid_guid a -> valid_guid b -> guid_eq o a b = true -> hash w o a = hash w o b).
Proof.
  split; [apply object_bytes_length|].
  split.
  - unfold hash, fnv1a. rewrite hash_loop_fold.
    rewrite <- (object_bytes_length o a) at 1. rewrite map_at_seq. reflexivity.
  - split; [reflexivity|]. split; [reflexivity|].
    intros Ha Hb H. rewrite (guid_eq_true o a b Ha Hb H). reflexivity.
Qed.

Lemma hash_is_fnv1a_witness :
  valid_guid example_guid /\
  guid_eq little_endian example_guid example_guid = true /\
  hash sizeof_8 little_endian example_guid = hash sizeof_8 little_endian example_guid.
Proof.
  split; [exact example_guid_valid|]. split; [reflexivity|].
  apply (proj2 (proj2 (proj2 (proj2
           (hash_is_fnv1a sizeof_8 little_endian example_guid example_guid))))).
  - exact example_guid_valid.
  - exact example_guid_valid.
  - reflexivity.
Defined.

(** ** Text codec: formatting *)

Section Formatting.
Variable T : int_type.

Lemma cast_ascii z : 8 <= bits T -> 0 <= z < 128 -> cast T z = z.
Proof.
  intros T_wide Hz. unfold cast.
  assert (P : 2 ^ 7 <= 2 ^ (bits T - 1)) by (apply Z.pow_le_mono_r; lia).
  assert (Q : 2 ^ bits T = 2 * 2 ^ (bits T - 1)).
  { rewrite <- Z.pow_succ_r by lia. f_equal. lia. }
  change (2 ^ 7) with 128 in P.
  destruct (is_signed T).
  - unfold wrap_signed. rewrite Z.mod_small by lia. lia.
  - unfold wrap_unsigned. apply Z.mod_small. lia.
Qed.

Lemma digit_low n : 8 <= bits T -> 0 <= n < 10 -> digit T n = n + 48.
Proof.
  intros T_wide H. unfold digit. destruct (Z.ltb_spec n 10); [|lia].
  apply cast_ascii; [exact T_wide|]. change (lit "0") with 48. lia.
Qed.

Lemma digit_high n : 8 <= bits T -> 10 <= n < 16 -> digit T n = n + 87.
Proof.
  intros T_wide H. unfold digit. destruct (Z.ltb_spec n 10); [lia|].
  change (lit "a" - 10) with 87. apply cast_ascii; [exact T_wide | lia].
Qed.

Lemma HalfByteToChar_ok hb :
  0 <= hb < 16 -> formatted_guid.HalfByteToChar T hb = Return (digit T hb).
Proof.
  intros H. unfold formatted_guid.HalfByteToChar.
  destruct (Z.leb_spec 16 hb); [lia|]. reflexivity.
Qed.

Lemma nibbles_in_range ui8 :
  byte_ok ui8 ->
  u8 (Z.shiftr ui8 4) = ui8 / 16 /\ u8 (Z.land ui8 0xf) = ui8 mod 16 /\
  0 <= ui8 / 16 < 16 /\ 0 <= ui8 mod 16 < 16.
Proof.
  intros H. unfold byte_ok in H.
  rewrite Z.shiftr_div_pow2 by lia. change (2 ^ 4) with 16.
  change 0xf with (Z.ones 4). rewrite Z.land_ones by lia. change (2 ^ 4) with 16.
  assert (0 <= ui8 / 16 < 16) by (split; [apply Z.div_pos | apply Z.div_lt_upper_bound]; lia).
  assert (0 <= ui8 mod 16 < 16) by (apply Z.mod_pos_bound; lia).
  rewrite !u8_small by lia. auto.
Qed.

Lemma First_ok ui8 :
  byte_ok ui8 -> formatted_guid.First T ui8 = Return (digit T (ui8 / 16)).
Proof.
  intros H. destruct (nibbles_in_range ui8 H) as (E & _ & R & _).
  unfold formatted_guid.First. rewrite E. apply HalfByteToChar_ok. exact R.
Qed.

Lemma Second_ok ui8 :
  byte_ok ui8 -> formatted_guid.Second T ui8 = Return (digit T (ui8 mod 16)).
Proof.
  intros H. destruct (nibbles_in_range ui8 H) as (_ & E & _ & R).
  unfold formatted_guid.Second. rewrite E. apply HalfByteToChar_ok. exact R.
Qed.

Lemma Upper_eq ui16 :
  0 <= ui16 < 65536 -> formatted_guid.Upper ui16 = ui16 / 256 /\ byte_ok (ui16 / 256).
Proof.
  intros H. unfold formatted_guid.Upper, byte_ok.
  rewrite Z.shiftr_div_pow2 by lia. change (2 ^ 8) with 256.
  assert (0 <= ui16 / 256 < 256) by (split; [apply Z.div_pos | apply Z.div_lt_upper_bound]; lia).
  rewrite u8_small by lia. auto.
Qed.

Lemma Lower_eq ui16 :
  0 <= ui16 < 65536 -> formatted_guid.Lower ui16 = ui16 mod 256 /\ byte_ok (ui16 mod 256).
Proof.
  intros H. unfold formatted_guid.Lower, byte_ok.
  change 0xff with (Z.ones 8). rewrite Z.land_ones by lia. change (2 ^ 8) with 256.
  assert (0 <= ui16 mod 256 < 256) by (apply Z.mod_pos_bound; lia).
  rewrite u8_small by lia. auto.
Qed.

Lemma High_eq ui32 :
  0 <= ui32 < 4294967296 ->
  formatted_guid.High ui32 = ui32 / 65536 /\ 0 <= ui32 / 65536 < 65536.
Proof.
  intros H. unfold formatted_guid.High.
  rewrite Z.shiftr_div_pow2 by lia. change (2 ^ 16) with 65536.
  assert (0 <= ui32 / 65536 < 65536) by (split; [apply Z.div_pos | apply Z.div_lt_upper_bound]; lia).
  rewrite u16_small by lia. auto.
Qed.

Lemma Low_eq ui32 :
  0 <= ui32 < 4294967296 ->
  formatted_guid.Low ui32 = ui32 mod 65536 /\ 0 <= ui32 mod 65536 < 65536.
Proof.
  intros H. unfold formatted_guid.Low.
  change 0xffff with (Z.ones 16). rewrite Z.land_ones by lia. change (2 ^ 16) with 65536.
  assert (0 <= ui32 mod 65536 < 65536) by (apply Z.mod_pos_bound; lia).
  rewrite u16_small by lia. auto.
Qed.

Lemma uint16_digits w :
  0 <= w < 65536 ->
  [ formatted_guid.First T (formatted_guid.Upper w);
    formatted_guid.Second T (formatted_guid.Upper w);
    formatted_guid.First T (formatted_guid.Lower w);
    formatted_guid.Second T (formatted_guid.Lower w) ]
  = map Return (uint16_text T w).
Proof.
  intros H. destruct (Upper_eq w H) as [-> HU]. destruct (Lower_eq w H) as [-> HL].
  rewrite !First_ok, !Second_ok by assumption. reflexivity.
Qed.

Lemma osequence_returns {A} (l : list A) : osequence (map Return l) = Return l.
Proof.
  induction l as [|a l IH]; [reflexivity|].
  cbn [map osequence obind]. rewrite IH. reflexivity.
Qed.

Lemma value_initializer_returns g :
  valid_guid g ->
  formatted_guid.value_initializer T g = map Return (guid_text T g).
Proof.
  intros H.
  destruct (valid_Data4_eq g H) as (b0 & b1 & b2 & b3 & b4 & b5 & b6 & b7 & E & F).
  pose proof (valid_Data1 g H) as H1. change (2 ^ 32) with 4294967296 in H1.
  pose proof (valid_Data2 g H) as H2. change (2 ^ 16) with 65536 in H2.
  pose proof (valid_Data3 g H) as H3. change (2 ^ 16) with 65536 in H3.
  destruct (High_eq _ H1) as [EH RH]. destruct (Low_eq _ H1) as [EL RL].
  pose proof (uint16_digits _ RH) as DH. pose proof (uint16_digits _ RL) as DL.
  pose proof (uint16_digits _ H2) as D2. pose proof (uint16_digits _ H3) as D3.
  rewrite <- EH in DH at 1 2 3 4. rewrite <- EL in DL at 1 2 3 4.
  cbn [map uint16_text byte_text app] in DH, DL, D2, D3.
  unfold formatted_guid.value_initializer, guid_text, uint32_text, uint16_text, byte_text.
  unfold Data4_at. rewrite E. cbn [nth].
  injection DH as -> -> -> ->. injection DL as -> -> -> ->.
  injection D2 as -> -> -> ->. injection D3 as -> -> -> ->.
  repeat match goal with F : Forall _ (_ :: _) |- _ => inversion_clear F end.
  rewrite !First_ok, !Second_ok by assumption.
  reflexivity.
Qed.

Lemma value_returns g :
  valid_guid g -> formatted_guid.value T g = Return (guid_text T g).
Proof.
  intros H. unfold formatted_guid.value.
  rewrite value_initializer_returns by exact H. apply osequence_returns.
Qed.

End Formatting.

(** C10: for every guid the constructor of formatted_guid returns without
    throwing format_error: First and Second hand HalfByteToChar a value in
    0..15 only, which it accepts, so the member [value] is a complete buffer
    of 39 code units (38 characters and the terminator). *)
Theorem formatted_guid_never_throws (T : int_type) (g : guid) :
  valid_guid g ->
  (exists buffer,
      formatted_guid.value T g = Return buffer /\ length buffer = 39%nat) /\
  (forall ui8, byte_ok ui8 ->
      0 <= u8 (Z.shiftr ui8 4) < 16 /\ 0 <= u8 (Z.land ui8 0xf) < 16 /\
      (exists c, formatted_guid.First T ui8 = Return c) /\
      (exists c, formatted_guid.Second T ui8 = Return c)) /\
  (forall hb, 0 <= hb < 16 ->
      exists c, formatted_guid.HalfByteToChar T hb = Return c) /\
  (forall m, In m (formatted_guid.value_initializer T g) -> exists c, m = Return c).
Proof.
  intros H. split; [|split; [|split]].
  - exists (guid_text T g). split; [apply value_returns; exact H | reflexivity].
  - intros ui8 Hb. destruct (nibbles_in_range ui8 Hb) as (E1 & E2 & R1 & R2).
    rewrite E1, E2. repeat split; try tauto.
    + eexists. apply First_ok. exact Hb.
    + eexists. apply Second_ok. exact Hb.
  - intros hb Hhb. eexists. apply HalfByteToChar_ok. exact Hhb.
  - intros m Hm. rewrite value_initializer_returns in Hm by exact H.
    apply in_map_iff in Hm. destruct Hm as (c & <- & _). exists c. reflexivity.
Qed.

Lemma formatted_guid_never_throws_witness :
  valid_guid example_guid /\
  exists buffer,
    formatted_guid.value char example_guid = Return buffer /\ length buffer = 39%nat.
Proof.
  split; [exact example_guid_valid|].
  exact (proj1 (formatted_guid_never_throws char example_guid example_guid_valid)).
Defined.

(** ** Text codec: the parser at one code unit *)

Lemma ParseHalfByte_at buf p c :
  nth_error buf p = Some c ->
  guid_parser.ParseHalfByte buf p =
  if is_hex_digit c then Return (hex_value c, S p)
  else Throw (parse_error "Invalid hexadecimal character!" p).
Proof.
  intros H. unfold guid_parser.ParseHalfByte, pbind, peek, advance, pret, cursor, pthrow.
  rewrite H. unfold is_hex_digit, hex_value.
  change (lit "0") with 48. change (lit "9") with 57. change (lit "a") with 97.
  change (lit "f") with 102. change (lit "A") with 65. change (lit "F") with 70.
  destruct (Z.leb_spec 48 c), (Z.leb_spec c 57), (Z.leb_spec 97 c), (Z.leb_spec c 102),
    (Z.leb_spec 65 c), (Z.leb_spec c 70); cbn [andb orb]; cbv beta; try lia;
    rewrite ?u8_small by lia; try reflexivity;
    do 2 f_equal; lia.
Qed.

Lemma ParseHalfByte_end buf p :
  nth_error buf p = None -> guid_parser.ParseHalfByte buf p = OutOfBounds.
Proof.
  intros H. unfold guid_parser.ParseHalfByte, pbind, peek. rewrite H. reflexivity.
Qed.

Lemma TryParseChar_at buf p x c :
  nth_error buf p = Some x ->
  guid_parser.TryParseChar c buf p =
  if x =? c then Return (true, S p) else Return (false, p).
Proof.
  intros H. unfold guid_parser.TryParseChar, pbind, peek. rewrite H.
  destruct (x =? c); reflexivity.
Qed.

Lemma ParseChar_at buf p x c :
  nth_error buf p = Some x ->
  guid_parser.ParseChar c buf p =
  if x =? c then Return (tt, S p)
  else Throw (parse_error "Improperly formatted guid!" p).
Proof.
  intros H. unfold guid_parser.ParseChar, pbind.
  rewrite (TryParseChar_at buf p x c H). destruct (x =? c); reflexivity.
Qed.

Lemma ParseChar_end buf p c :
  nth_error buf p = None -> guid_parser.ParseChar c buf p = OutOfBounds.
Proof.
  intros H. unfold guid_parser.ParseChar, guid_parser.TryParseChar, pbind, peek.
  rewrite H. reflexivity.
Qed.

Lemma nth_error_middle (pre post : list Z) c :
  nth_error (pre ++ c :: post) (length pre) = Some c.
Proof. induction pre as [|x pre IH]; [reflexivity | exact IH]. Qed.

(** ** Text codec: reading back what the formatter wrote *)

Lemma consumes_bind {A B} (m : parser A) (f : A -> parser B) l1 l2 v w :
  consumes m l1 v -> consumes (f v) l2 w -> consumes (pbind m f) (l1 ++ l2) w.
Proof.
  intros H1 H2 pre post. unfold pbind.
  rewrite <- app_assoc, H1.
  specialize (H2 (pre ++ l1) post). rewrite length_app, <- app_assoc in H2.
  rewrite H2, length_app. do 2 f_equal. lia.
Qed.

Lemma consumes_ret {A} (v : A) : consumes (pret v) [] v.
Proof. intros pre post. unfold pret. cbn [length]. rewrite Nat.add_0_r. reflexivity. Qed.

Lemma consumes_ParseChar c : consumes (guid_parser.ParseChar c) [c] tt.
Proof.
  intros pre post. cbn [app length].
  rewrite (ParseChar_at _ _ c c (nth_error_middle pre post c)), Z.eqb_refl.
  do 2 f_equal. lia.
Qed.

Lemma consumes_TryParseChar c : consumes (guid_parser.TryParseChar c) [c] true.
Proof.
  intros pre post. cbn [app length].
  rewrite (TryParseChar_at _ _ c c (nth_error_middle pre post c)), Z.eqb_refl.
  do 2 f_equal. lia.
Qed.

Section ReadingBack.
Variable T : int_type.
Hypothesis T_wide : 8 <= bits T.

Lemma consumes_digit n :
  0 <= n < 16 -> consumes guid_parser.ParseHalfByte [digit T n] n.
Proof.
  intros H pre post. cbn [app length].
  rewrite (ParseHalfByte_at _ _ _ (nth_error_middle pre post (digit T n))).
  destruct (Z.lt_ge_cases n 10) as [L|G].
  - rewrite (digit_low T n T_wide) by lia. unfold is_hex_digit, hex_value.
    change (lit "0") with 48. change (lit "9") with 57.
    destruct (Z.leb_spec 48 (n + 48)), (Z.leb_spec (n + 48) 57); try lia.
    cbn [andb orb]. do 2 f_equal; lia.
  - rewrite (digit_high T n T_wide) by lia. unfold is_hex_digit, hex_value.
    change (lit "0") with 48. change (lit "9") with 57.
    change (lit "a") with 97. change (lit "f") with 102.
    destruct (Z.leb_spec 48 (n + 87)), (Z.leb_spec (n + 87) 57),
      (Z.leb_spec 97 (n + 87)), (Z.leb_spec (n + 87) 102); try lia.
    cbn [andb orb]. do 2 f_equal; lia.
Qed.

Lemma consumes_byte b :
  byte_ok b -> consumes guid_parser.ParseByte (byte_text T b) b.
Proof.
  intros H. unfold byte_ok in H.
  assert (0 <= b / 16 < 16) by (split; [apply Z.div_pos | apply Z.div_lt_upper_bound]; lia).
  assert (0 <= b mod 16 < 16) by (apply Z.mod_pos_bound; lia).
  unfold guid_parser.ParseByte, byte_text.
  change [digit T (b / 16); digit T (b mod 16)]
    with ([digit T (b / 16)] ++ [digit T (b mod 16)] ++ []).
  eapply consumes_bind; [apply consumes_digit; assumption|].
  eapply consumes_bind; [apply consumes_digit; assumption|].
  replace (u8 (Z.lor (Z.shiftl (b / 16) 4) (b mod 16))) with b; [apply consumes_ret|].
  rewrite lor_shiftl_add by (change (2 ^ 4) with 16; lia).
  change (2 ^ 4) with 16. rewrite u8_small; [|pose proof (Z.div_mod b 16); lia].
  pose proof (Z.div_mod b 16). lia.
Qed.

Lemma consumes_uint16 w :
  0 <= w < 65536 -> consumes guid_parser.ParseUInt16 (uint16_text T w) w.
Proof.
  intros H.
  assert (0 <= w / 256 < 256) by (split; [apply Z.div_pos | apply Z.div_lt_upper_bound]; lia).
  assert (0 <= w mod 256 < 256) by (apply Z.mod_pos_bound; lia).
  unfold guid_parser.ParseUInt16, uint16_text.
  rewrite <- (app_nil_r (byte_text T (w mod 256))).
  eapply consumes_bind; [apply consumes_byte; assumption|].
  eapply consumes_bind; [apply consumes_byte; assumption|].
  replace (u16 (Z.lor (Z.shiftl (w / 256) 8) (w mod 256))) with w; [apply consumes_ret|].
  rewrite lor_shiftl_add by (change (2 ^ 8) with 256; lia).
  change (2 ^ 8) with 256. rewrite u16_small; [|pose proof (Z.div_mod w 256); lia].
  pose proof (Z.div_mod w 256). lia.
Qed.

Lemma s32_shiftl h :
  0 <= h < 65536 ->
  exists h', s32 (Z.shiftl h 16) = Z.shiftl h' 16 /\ (h' = h \/ h' = h - 65536).
Proof.
  intros H. unfold s32, cast, int32_t, wrap_signed; cbn [is_signed bits].
  rewrite Z.shiftl_mul_pow2 by lia.
  change (2 ^ (32 - 1)) with 2147483648. change (2 ^ 32) with 4294967296.
  change (2 ^ 16) with 65536.
  destruct (Z.lt_ge_cases h 32768) as [L|G].
  - exists h. split; [|left; reflexivity].
    rewrite Z.shiftl_mul_pow2 by lia. change (2 ^ 16) with 65536.
    rewrite Z.mod_small by lia. lia.
  - exists (h - 65536). split; [|right; reflexivity].
    rewrite Z.shiftl_mul_pow2 by lia. change (2 ^ 16) with 65536.
    replace (h * 65536 + 2147483648) with (h * 65536 - 2147483648 + 1 * 4294967296) by lia.
    rewrite Z.mod_add by lia. rewrite Z.mod_small by lia. lia.
Qed.

Lemma consumes_uint32 d :
  0 <= d < 4294967296 -> consumes guid_parser.ParseUInt32 (uint32_text T d) d.
Proof.
  intros H.
  assert (Hh : 0 <= d / 65536 < 65536)
    by (split; [apply Z.div_pos | apply Z.div_lt_upper_bound]; lia).
  assert (Hl : 0 <= d mod 65536 < 65536) by (apply Z.mod_pos_bound; lia).
  unfold guid_parser.ParseUInt32, uint32_text.
  rewrite <- (app_nil_r (uint16_text T (d mod 65536))).
  eapply consumes_bind; [apply consumes_uint16; assumption|].
  eapply consumes_bind; [apply consumes_uint16; assumption|].
  replace (u32 (Z.lor (s32 (Z.shiftl (d / 65536) 16)) (d mod 65536))) with d;
    [apply consumes_ret|].
  destruct (s32_shiftl _ Hh) as (h' & -> & Hh').
  rewrite lor_shiftl_add by (change (2 ^ 16) with 65536; lia).
  change (2 ^ 16) with 65536. pose proof (Z.div_mod d 65536).
  unfold u32, cast, uint32_t, wrap_unsigned; cbn [is_signed bits].
  change (2 ^ 32) with 4294967296.
  destruct Hh' as [-> | ->].
  - rewrite Z.mod_small by lia. lia.
  - replace ((d / 65536 - 65536) * 65536 + d mod 65536)
      with (d + (-1) * 4294967296) by lia.
    rewrite Z.mod_add by lia. rewrite Z.mod_small by lia. reflexivity.
Qed.

Lemma consumes_sep_uint16 c w :
  0 <= w < 65536 ->
  consumes (guid_parser.ParseChar c ;;; guid_parser.ParseUInt16)
           ([c] ++ uint16_text T w) w.
Proof.
  intros H. eapply consumes_bind; [apply consumes_ParseChar|].
  apply consumes_uint16. exact H.
Qed.

Lemma consumes_sep_byte c b :
  byte_ok b ->
  consumes (guid_parser.ParseChar c ;;; guid_parser.ParseByte)
           ([c] ++ byte_text T b) b.
Proof.
  intros H. eapply consumes_bind; [apply consumes_ParseChar|].
  apply consumes_byte. exact H.
Qed.

Lemma consumes_fields d1 d2 d3 b0 b1 b2 b3 b4 b5 b6 b7 :
  valid_guid (Guid d1 d2 d3 [b0; b1; b2; b3; b4; b5; b6; b7]) ->
  consumes (guid_parser.parse_fields T)
    (uint32_text T d1 ++
     ([cast T (lit "-")] ++ uint16_text T d2) ++
     ([cast T (lit "-")] ++ uint16_text T d3) ++
     ([cast T (lit "-")] ++ byte_text T b0) ++ byte_text T b1 ++
     ([cast T (lit "-")] ++ byte_text T b2) ++ byte_text T b3 ++
     byte_text T b4 ++ byte_text T b5 ++ byte_text T b6 ++ byte_text T b7 ++ [])
    (Guid d1 d2 d3 [b0; b1; b2; b3; b4; b5; b6; b7]).
Proof.
  intros [H1 H2 H3 _ F]. cbn [Data1 Data2 Data3 Data4] in *.
  change (2 ^ 32) with 4294967296 in H1. change (2 ^ 16) with 65536 in H2, H3.
  repeat match goal with F : Forall _ (_ :: _) |- _ => inversion_clear F end.
  unfold guid_parser.parse_fields.
  eapply consumes_bind; [apply consumes_uint32; assumption|].
  eapply consumes_bind; [apply consumes_sep_uint16; assumption|].
  eapply consumes_bind; [apply consumes_sep_uint16; assumption|].
  eapply consumes_bind; [apply consumes_sep_byte; assumption|].
  eapply consumes_bind; [apply consumes_byte; assumption|].
  eapply consumes_bind; [apply consumes_sep_byte; assumption|].
  do 5 (eapply consumes_bind; [apply consumes_byte; assumption|]).
  apply consumes_ret.
Qed.

Lemma parse_guid_text g :
  valid_guid g -> parse_guid T (guid_text T g) = Return g.
Proof.
  intros H.
  destruct (valid_Data4_eq g H) as (b0 & b1 & b2 & b3 & b4 & b5 & b6 & b7 & E & _).
  destruct g as [d1 d2 d3 d4]. cbn [Data4] in E. subst d4.
  assert (C : consumes (guid_parser.parse T)
                ([cast T (lit "{")] ++
                 (uint32_text T d1 ++
                  ([cast T (lit "-")] ++ uint16_text T d2) ++
                  ([cast T (lit "-")] ++ uint16_text T d3) ++
                  ([cast T (lit "-")] ++ byte_text T b0) ++ byte_text T b1 ++
                  ([cast T (lit "-")] ++ byte_text T b2) ++ byte_text T b3 ++
                  byte_text T b4 ++ byte_text T b5 ++ byte_text T b6 ++
                  byte_text T b7 ++ []) ++
                 [cast T (lit "}")] ++ [cast T 0] ++ [])
                (Guid d1 d2 d3 [b0; b1; b2; b3; b4; b5; b6; b7])).
  { unfold guid_parser.parse.
    eapply consumes_bind; [apply consumes_TryParseChar|]. cbv beta.
    eapply consumes_bind; [apply consumes_fields; exact H|]. cbv beta iota.
    eapply consumes_bind; [apply consumes_ParseChar|].
    eapply consumes_bind; [apply consumes_ParseChar|].
    apply consumes_ret. }
  specialize (C [] []). rewrite app_nil_r in C.
  unfold parse_guid.
  replace (guid_text T (Guid d1 d2 d3 [b0; b1; b2; b3; b4; b5; b6; b7]))
    with ([] ++
          [cast T (lit "{")] ++
          (uint32_text T d1 ++
           ([cast T (lit "-")] ++ uint16_text T d2) ++
           ([cast T (lit "-")] ++ uint16_text T d3) ++
           ([cast T (lit "-")] ++ byte_text T b0) ++ byte_text T b1 ++
           ([cast T (lit "-")] ++ byte_text T b2) ++ byte_text T b3 ++
           byte_text T b4 ++ byte_text T b5 ++ byte_text T b6 ++
           byte_text T b7 ++ []) ++
          [cast T (lit "}")] ++ [cast T 0] ++ []).
  - cbn [length] in C. rewrite C. reflexivity.
  - unfold guid_text, Data4_at. cbn [Data1 Data2 Data3 Data4 nth].
    rewrite <- !app_assoc. reflexivity.
Qed.

End ReadingBack.

(** C1: parsing the text the formatter produced for a guid gives that guid
    back, for the byte-char and for the wide-char element type (and for any
    other element type of at least eight bits). *)
Theorem parse_format_roundtrip (g : guid) :
  valid_guid g ->
  obind (formatted_guid.value char g) (parse_guid char) = Return g /\
  obind (formatted_guid.value wchar_t g) (parse_guid wchar_t) = Return g /\
  (forall T, 8 <= bits T ->
     obind (formatted_guid.value T g) (parse_guid T) = Return g).
Proof.
  intros H.
  assert (G : forall T, 8 <= bits T ->
                obind (formatted_guid.value T g) (parse_guid T) = Return g).
  { intros T T_wide. rewrite (value_returns T g H). cbn [obind].
    apply parse_guid_text; assumption. }
  split; [apply G; discriminate|]. split; [apply G; discriminate | exact G].
Qed.

Lemma parse_format_roundtrip_witness :
  valid_guid example_guid /\
  obind (formatted_guid.value char example_guid) (parse_guid char) = Return example_guid /\
  obind (formatted_guid.value wchar_t example_guid) (parse_guid wchar_t)
    = Return example_guid.
Proof.
  split; [exact example_guid_valid|].
  destruct (parse_format_roundtrip example_guid example_guid_valid) as (Hc & Hw & _).
  split; [exact Hc | exact Hw].
Defined.

(** ** Text codec: where the parser fails *)

Lemma scan_app a1 a2 buf : forall p,
  scan (a1 ++ a2) buf p = obind (scan a1 buf p) (scan a2 buf).
Proof.
  induction a1 as [|a a1 IH]; intros p; [reflexivity|].
  cbn [app scan]. destruct (nth_error buf p) as [c|]; [|reflexivity].
  destruct a.
  - destruct (is_hex_digit c); [apply IH | reflexivity].
  - destruct (c =? c0); [apply IH | reflexivity].
Qed.

Lemma follows_bind {A B} a1 a2 (m : parser A) (f : A -> parser B) :
  follows a1 m -> (forall v, follows a2 (f v)) -> follows (a1 ++ a2) (pbind m f).
Proof.
  intros H1 H2 buf p. rewrite scan_app. specialize (H1 buf p). unfold pbind.
  destruct (scan a1 buf p) as [q|e| |]; cbn [obind].
  - destruct H1 as [v ->]. apply H2.
  - rewrite H1. reflexivity.
  - rewrite H1. reflexivity.
  - rewrite H1. reflexivity.
Qed.

Lemma follows_ret {A} (v : A) : follows [] (pret v).
Proof. intros buf p. cbn [scan]. exists v. reflexivity. Qed.

Lemma follows_ParseHalfByte : follows [read_hex] guid_parser.ParseHalfByte.
Proof.
  intros buf p. cbn [scan]. destruct (nth_error buf p) as [c|] eqn:E.
  - rewrite (ParseHalfByte_at buf p c E). destruct (is_hex_digit c); [eexists|]; reflexivity.
  - apply ParseHalfByte_end. exact E.
Qed.

Lemma follows_ParseChar c : follows [expect c] (guid_parser.ParseChar c).
Proof.
  intros buf p. cbn [scan]. destruct (nth_error buf p) as [x|] eqn:E.
  - rewrite (ParseChar_at buf p x c E). destruct (x =? c); [eexists|]; reflexivity.
  - apply ParseChar_end. exact E.
Qed.

Lemma follows_ParseByte : follows (repeat read_hex 2) guid_parser.ParseByte.
Proof.
  unfold guid_parser.ParseByte.
  apply (follows_bind [read_hex] [read_hex]); [apply follows_ParseHalfByte|]. intros first.
  apply (follows_bind [read_hex] []); [apply follows_ParseHalfByte|]. intros second.
  apply follows_ret.
Qed.

Lemma follows_ParseUInt16 : follows (repeat read_hex 4) guid_parser.ParseUInt16.
Proof.
  unfold guid_parser.ParseUInt16.
  apply (follows_bind (repeat read_hex 2) (repeat read_hex 2)); [apply follows_ParseByte|].
  intros upper.
  apply (follows_bind (repeat read_hex 2) []); [apply follows_ParseByte|]. intros lower.
  apply follows_ret.
Qed.

Lemma follows_ParseUInt32 : follows (repeat read_hex 8) guid_parser.ParseUInt32.
Proof.
  unfold guid_parser.ParseUInt32.
  apply (follows_bind (repeat read_hex 4) (repeat read_hex 4)); [apply follows_ParseUInt16|].
  intros high.
  apply (follows_bind (repeat read_hex 4) []); [apply follows_ParseUInt16|]. intros low.
  apply follows_ret.
Qed.

Lemma follows_sep {A} c acts (m : parser A) :
  follows acts m -> follows (expect c :: acts) (guid_parser.ParseChar c ;;; m).
Proof.
  intros H. apply (follows_bind [expect c] acts); [apply follows_ParseChar|].
  intros _. exact H.
Qed.

Lemma follows_parse_fields T :
  8 <= bits T ->
  follows (map action_of_slot body_layout) (guid_parser.parse_fields T).
Proof.
  intros T_wide. unfold guid_parser.parse_fields.
  rewrite (cast_ascii T (lit "-") T_wide) by (split; [discriminate | reflexivity]).
  apply (follows_bind (repeat read_hex 8)
           (expect (lit "-") :: repeat read_hex 4 ++ expect (lit "-") :: repeat read_hex 4 ++
            expect (lit "-") :: repeat read_hex 2 ++ repeat read_hex 2 ++
            expect (lit "-") :: repeat read_hex 2 ++ repeat read_hex 10));
    [apply follows_ParseUInt32|]. intros d1.
  apply (follows_bind (expect (lit "-") :: repeat read_hex 4)
           (expect (lit "-") :: repeat read_hex 4 ++
            expect (lit "-") :: repeat read_hex 2 ++ repeat read_hex 2 ++
            expect (lit "-") :: repeat read_hex 2 ++ repeat read_hex 10));
    [apply follows_sep, follows_ParseUInt16|]. intros d2.
  apply (follows_bind (expect (lit "-") :: repeat read_hex 4)
           (expect (lit "-") :: repeat read_hex 2 ++ repeat read_hex 2 ++
            expect (lit "-") :: repeat read_hex 2 ++ repeat read_hex 10));
    [apply follows_sep, follows_ParseUInt16|]. intros d3.
  apply (follows_bind (expect (lit "-") :: repeat read_hex 2)
           (repeat read_hex 2 ++
            expect (lit "-") :: repeat read_hex 2 ++ repeat read_hex 10));
    [apply follows_sep, follows_ParseByte|]. intros b0.
  apply (follows_bind (repeat read_hex 2)
           (expect (lit "-") :: repeat read_hex 2 ++ repeat read_hex 10));
    [apply follows_ParseByte|]. intros b1.
  apply (follows_bind (expect (lit "-") :: repeat read_hex 2) (repeat read_hex 10));
    [apply follows_sep, follows_ParseByte|]. intros b2.
  apply (follows_bind (repeat read_hex 2) (repeat read_hex 8)); [apply follows_ParseByte|].
  intros b3.
  apply (follows_bind (repeat read_hex 2) (repeat read_hex 6)); [apply follows_ParseByte|].
  intros b4.
  apply (follows_bind (repeat read_hex 2) (repeat read_hex 4)); [apply follows_ParseByte|].
  intros b5.
  apply (follows_bind (repeat read_hex 2) (repeat read_hex 2)); [apply follows_ParseByte|].
  intros b6.
  apply (follows_bind (repeat read_hex 2) []); [apply follows_ParseByte|].
  intros b7.
  apply follows_ret.
Qed.

Lemma skipn_cons (buf : list Z) : forall b c rest,
  skipn b buf = c :: rest -> nth_error buf b = Some c /\ skipn (S b) buf = rest.
Proof.
  induction buf as [|x buf IH]; intros b c rest H.
  - destruct b; discriminate H.
  - destruct b as [|b].
    + cbn in H. injection H as -> ->. split; reflexivity.
    + cbn [skipn] in H. apply IH in H. exact H.
Qed.

Lemma scan_layout_pass buf : forall l b,
  matches_layout l (skipn b buf) = true ->
  scan (map action_of_slot l) buf b = Return (b + length l)%nat.
Proof.
  induction l as [|s l IH]; intros b H.
  - cbn. f_equal. lia.
  - cbn [matches_layout] in H. destruct (skipn b buf) as [|c rest] eqn:E; [discriminate|].
    apply skipn_cons in E. destruct E as [E1 E2].
    apply andb_prop in H. destruct H as [Hs Hl]. rewrite <- E2 in Hl.
    cbn [map scan]. rewrite E1.
    destruct s; cbn [action_of_slot slot_matches] in *; rewrite Hs, (IH _ Hl);
      f_equal; cbn [length]; lia.
Qed.

Lemma scan_layout_fail buf : forall l p b c,
  nth_error l p = Some hex_slot ->
  matches_layout (firstn p l) (skipn b buf) = true ->
  nth_error buf (b + p) = Some c ->
  is_hex_digit c = false ->
  scan (map action_of_slot l) buf b =
  Throw (parse_error "Invalid hexadecimal character!" (b + p)).
Proof.
  induction l as [|s l IH]; intros p b c Hp Hm Hc Hx.
  - destruct p; discriminate Hp.
  - destruct p as [|p].
    + cbn in Hp. injection Hp as ->. rewrite Nat.add_0_r in *.
      cbn [map scan action_of_slot]. rewrite Hc, Hx. reflexivity.
    + cbn [nth_error] in Hp. cbn [firstn matches_layout] in Hm.
      destruct (skipn b buf) as [|c0 rest] eqn:E; [discriminate|].
      apply skipn_cons in E. destruct E as [E1 E2].
      apply andb_prop in Hm. destruct Hm as [Hs Hl]. rewrite <- E2 in Hl.
      replace (b + S p)%nat with (S b + p)%nat in * by lia.
      cbn [map scan]. rewrite E1.
      destruct s; cbn [action_of_slot slot_matches] in *; rewrite Hs;
        apply (IH p (S b) c Hp Hl Hc Hx).
Qed.

Lemma parse_opening T (T_wide : 8 <= bits T) str :
  str <> [] ->
  guid_parser.parse T str 0%nat =
  (parsed <- guid_parser.parse_fields T ;;
   match brace_offset str with
   | O => pret tt
   | S _ => guid_parser.ParseChar (cast T (lit "}"))
   end ;;;
   guid_parser.ParseChar (cast T 0) ;;;
   pret parsed) str (brace_offset str).
Proof.
  intros Hne. destruct str as [|x rest]; [contradiction|].
  unfold guid_parser.parse at 1. unfold pbind at 1.
  rewrite (TryParseChar_at (x :: rest) 0%nat x _ eq_refl).
  rewrite (cast_ascii T (lit "{") T_wide) by (split; [discriminate | reflexivity]).
  cbn [brace_offset]. destruct (x =? lit "{"); reflexivity.
Qed.

(** C5: when a code unit that is not a hexadecimal digit stands where the
    grammar requires one (the text before it being well formed), parse_guid
    throws a parse_error whose parsePoint is the position of that code unit
    and whose message is the literal "Invalid hexadecimal character!". *)
Theorem parse_rejects_non_hex (T : int_type) (str : list Z) (p : nat) (c : Z) :
  8 <= bits T ->
  nth_error body_layout p = Some hex_slot ->
  matches_layout (firstn p body_layout) (skipn (brace_offset str) str) = true ->
  nth_error str (brace_offset str + p) = Some c ->
  is_hex_digit c = false ->
  parse_guid T str =
  Throw (parse_error "Invalid hexadecimal character!" (brace_offset str + p)).
Proof.
  intros T_wide Hp Hm Hc Hx.
  assert (Hne : str <> []) by (intros ->; destruct p; discriminate Hc).
  unfold parse_guid. rewrite (parse_opening T T_wide str Hne).
  pose proof (follows_parse_fields T T_wide str (brace_offset str)) as F.
  rewrite (scan_layout_fail str body_layout p (brace_offset str) c Hp Hm Hc Hx) in F.
  unfold pbind at 1. rewrite F. reflexivity.
Qed.

Lemma parse_rejects_non_hex_witness :
  nth_error (c_str "{00000000-0000-0000-0000-00000000000G}") 36 = Some (lit "G") /\
  parse_guid char (c_str "{00000000-0000-0000-0000-00000000000G}") =
  Throw (parse_error "Invalid hexadecimal character!" 36).
Proof.
  split; [reflexivity|].
  apply (parse_rejects_non_hex char (c_str "{00000000-0000-0000-0000-00000000000G}")
           35 (lit "G")).
  - discriminate.
  - reflexivity.
  - reflexivity.
  - reflexivity.
  - reflexivity.
Defined.

(** ** Text codec: letter case *)

Ltac split_comparisons :=
  repeat match goal with
         | |- context [?a <=? ?b] => destruct (Z.leb_spec a b)
         | H : context [?a <=? ?b] |- _ => destruct (Z.leb_spec a b)
         end.

Lemma recases_upper : recases to_upper_hex.
Proof.
  unfold recases, to_upper_hex, is_hex_digit, hex_value.
  change (lit "0") with 48. change (lit "9") with 57. change (lit "a") with 97.
  change (lit "f") with 102. change (lit "A") with 65. change (lit "F") with 70.
  repeat split; intros x; [|intros H|intros H];
    destruct (Z.leb_spec 97 x), (Z.leb_spec x 102); cbn [andb orb] in *;
    split_comparisons; cbn [andb orb] in *; try reflexivity; try discriminate; lia.
Qed.

Lemma recases_lower : recases to_lower_hex.
Proof.
  unfold recases, to_lower_hex, is_hex_digit, hex_value.
  change (lit "0") with 48. change (lit "9") with 57. change (lit "a") with 97.
  change (lit "f") with 102. change (lit "A") with 65. change (lit "F") with 70.
  repeat split; intros x; [|intros H|intros H];
    destruct (Z.leb_spec 65 x), (Z.leb_spec x 70); cbn [andb orb] in *;
    split_comparisons; cbn [andb orb] in *; try reflexivity; try discriminate; lia.
Qed.

Lemma recases_eqb f c x :
  recases f -> is_hex_digit c = false -> (f x =? c) = (x =? c).
Proof.
  intros (H1 & _ & H3) Hc. destruct (is_hex_digit x) eqn:Hx.
  - destruct (Z.eqb_spec (f x) c) as [E|_].
    + rewrite <- E, H1, Hx in Hc. discriminate.
    + destruct (Z.eqb_spec x c) as [E|_]; [|reflexivity].
      rewrite <- E, Hx in Hc. discriminate.
  - rewrite (H3 x Hx). reflexivity.
Qed.

Lemma blind_bind {A B} f (m : parser A) (k : A -> parser B) :
  blind_to f m -> (forall a, blind_to f (k a)) -> blind_to f (pbind m k).
Proof.
  intros Hm Hk buf p. unfold pbind. rewrite Hm.
  destruct (m buf p) as [[a q]|e| |]; [apply Hk | reflexivity ..].
Qed.

Lemma blind_ret {A} f (v : A) : blind_to f (pret v).
Proof. intros buf p. reflexivity. Qed.

Lemma blind_ParseHalfByte f : recases f -> blind_to f guid_parser.ParseHalfByte.
Proof.
  intros (H1 & H2 & _) buf p. destruct (nth_error buf p) as [c|] eqn:E.
  - rewrite (ParseHalfByte_at (map f buf) p (f c)) by (rewrite nth_error_map, E; reflexivity).
    rewrite (ParseHalfByte_at buf p c E), H1.
    destruct (is_hex_digit c) eqn:Hc; [rewrite (H2 c Hc)|]; reflexivity.
  - rewrite (ParseHalfByte_end buf p E).
    apply ParseHalfByte_end. rewrite nth_error_map, E. reflexivity.
Qed.

Lemma blind_TryParseChar f c :
  recases f -> is_hex_digit c = false -> blind_to f (guid_parser.TryParseChar c).
Proof.
  intros Hf Hc buf p. destruct (nth_error buf p) as [x|] eqn:E.
  - rewrite (TryParseChar_at (map f buf) p (f x) c) by (rewrite nth_error_map, E; reflexivity).
    rewrite (TryParseChar_at buf p x c E), (recases_eqb f c x Hf Hc). reflexivity.
  - unfold guid_parser.TryParseChar, pbind, peek. rewrite nth_error_map, E. reflexivity.
Qed.

Lemma blind_ParseChar f c :
  recases f -> is_hex_digit c = false -> blind_to f (guid_parser.ParseChar c).
Proof.
  intros Hf Hc buf p. destruct (nth_error buf p) as [x|] eqn:E.
  - rewrite (ParseChar_at (map f buf) p (f x) c) by (rewrite nth_error_map, E; reflexivity).
    rewrite (ParseChar_at buf p x c E), (recases_eqb f c x Hf Hc). reflexivity.
  - rewrite (ParseChar_end buf p c E).
    apply ParseChar_end. rewrite nth_error_map, E. reflexivity.
Qed.

Lemma blind_ParseByte f : recases f -> blind_to f guid_parser.ParseByte.
Proof.
  intros Hf. unfold guid_parser.ParseByte.
  repeat (apply blind_bind; [apply blind_ParseHalfByte; exact Hf | intros ?]).
  apply blind_ret.
Qed.

Lemma blind_ParseUInt16 f : recases f -> blind_to f guid_parser.ParseUInt16.
Proof.
  intros Hf. unfold guid_parser.ParseUInt16.
  repeat (apply blind_bind; [apply blind_ParseByte; exact Hf | intros ?]).
  apply blind_ret.
Qed.

Lemma blind_ParseUInt32 f : recases f -> blind_to f guid_parser.ParseUInt32.
Proof.
  intros Hf. unfold guid_parser.ParseUInt32.
  repeat (apply blind_bind; [apply blind_ParseUInt16; exact Hf | intros ?]).
  apply blind_ret.
Qed.

Lemma blind_parse T f :
  8 <= bits T -> recases f -> blind_to f (guid_parser.parse T).
Proof.
  intros T_wide Hf. unfold guid_parser.parse, guid_parser.parse_fields.
  rewrite (cast_ascii T (lit "-") T_wide) by (split; [discriminate | reflexivity]).
  rewrite (cast_ascii T (lit "{") T_wide) by (split; [discriminate | reflexivity]).
  rewrite (cast_ascii T (lit "}") T_wide) by (split; [discriminate | reflexivity]).
  rewrite (cast_ascii T 0 T_wide) by (split; [discriminate | reflexivity]).
  repeat first
    [ apply blind_ret
    | apply blind_ParseUInt32; exact Hf
    | apply blind_ParseUInt16; exact Hf
    | apply blind_ParseByte; exact Hf
    | apply blind_ParseChar; [exact Hf | reflexivity]
    | apply blind_TryParseChar; [exact Hf | reflexivity]
    | apply blind_bind; [|intros ?]
    | match goal with |- blind_to _ (if ?b then _ else _) => destruct b end ].
Qed.

Lemma parse_guid_recased T f str :
  8 <= bits T -> recases f -> parse_guid T (map f str) = parse_guid T str.
Proof.
  intros T_wide Hf. unfold parse_guid. rewrite (blind_parse T f T_wide Hf). reflexivity.
Qed.

Lemma follows_closing T (parsed : guid) b :
  8 <= bits T ->
  follows (match b with
           | O => [expect 0]
           | S _ => [expect (lit "}"); expect 0]
           end)
          (match b with
           | O => pret tt
           | S _ => guid_parser.ParseChar (cast T (lit "}"))
           end ;;;
           guid_parser.ParseChar (cast T 0) ;;;
           pret parsed).
Proof.
  intros T_wide.
  rewrite (cast_ascii T (lit "}") T_wide) by (split; [discriminate | reflexivity]).
  rewrite (cast_ascii T 0 T_wide) by (split; [discriminate | reflexivity]).
  destruct b as [|b].
  - apply (follows_bind [] [expect 0]); [apply follows_ret|]. intros _.
    apply (follows_bind [expect 0] []); [apply follows_ParseChar|]. intros _.
    apply follows_ret.
  - apply (follows_bind [expect (lit "}")] [expect 0]); [apply follows_ParseChar|]. intros _.
    apply (follows_bind [expect 0] []); [apply follows_ParseChar|]. intros _.
    apply follows_ret.
Qed.

Lemma well_formed_parses T str :
  8 <= bits T -> well_formed str = true -> exists g, parse_guid T str = Return g.
Proof.
  intros T_wide H. unfold well_formed in H. apply andb_prop in H. destruct H as [Hb Hc].
  assert (Hne : str <> []).
  { intros ->. rewrite skipn_nil in Hb. discriminate Hb. }
  unfold parse_guid. rewrite (parse_opening T T_wide str Hne).
  pose proof (follows_bind _ _ _ _ (follows_parse_fields T T_wide)
                (fun parsed => follows_closing T parsed (brace_offset str) T_wide)
                str (brace_offset str)) as F.
  rewrite scan_app, (scan_layout_pass str body_layout _ Hb) in F. cbn [obind] in F.
  assert (B : brace_offset str = 0%nat \/ brace_offset str = 1%nat).
  { destruct str as [|x rest]; [left; reflexivity|].
    cbn [brace_offset]. destruct (x =? lit "{"); [right | left]; reflexivity. }
  destruct B as [B|B]; rewrite B in *; cbn [Nat.add length body_layout repeat app scan] in F.
  - destruct (nth_error str 36) as [c|]; [|discriminate Hc]. rewrite Hc in F.
    destruct F as [v ->]. exists v. reflexivity.
  - destruct (nth_error str 37) as [c|]; [|discriminate Hc].
    destruct (nth_error str 38) as [z|]; [|discriminate Hc].
    apply andb_prop in Hc. destruct Hc as [Hc Hz]. rewrite Hc, Hz in F.
    destruct F as [v ->]. exists v. reflexivity.
Qed.

(** C6: a well-formed guid text parses to the same guid when every
    hexadecimal letter in it is put in upper case as when every one is put in
    lower case; a hexadecimal digit is accepted by ParseHalfByte in either
    case with the same value. *)
Theorem parse_case_insensitive (T : int_type) (str : list Z) :
  8 <= bits T ->
  well_formed str = true ->
  (exists g, parse_guid T (map to_upper_hex str) = Return g /\
             parse_guid T (map to_lower_hex str) = Return g) /\
  (forall c, is_hex_digit c = true ->
     exists v, guid_parser.ParseHalfByte [to_upper_hex c] 0%nat = Return (v, 1%nat) /\
               guid_parser.ParseHalfByte [to_lower_hex c] 0%nat = Return (v, 1%nat)).
Proof.
  intros T_wide H. split.
  - destruct (well_formed_parses T str T_wide H) as [g Hg]. exists g.
    rewrite !parse_guid_recased by (try exact T_wide; apply recases_upper || apply recases_lower).
    split; exact Hg.
  - intros c Hc. exists (hex_value c).
    destruct recases_upper as (U1 & U2 & _). destruct recases_lower as (L1 & L2 & _).
    rewrite (ParseHalfByte_at [to_upper_hex c] 0 (to_upper_hex c) eq_refl), U1, Hc, (U2 c Hc).
    rewrite (ParseHalfByte_at [to_lower_hex c] 0 (to_lower_hex c) eq_refl), L1, Hc, (L2 c Hc).
    split; reflexivity.
Qed.

Lemma parse_case_insensitive_witness :
  well_formed (c_str "{00112233-4455-6677-8899-aAbBcCdDeEfF}") = true /\
  exists g,
    parse_guid wchar_t (map to_upper_hex (c_str "{00112233-4455-6677-8899-aAbBcCdDeEfF}"))
      = Return g /\
    parse_guid wchar_t (map to_lower_hex (c_str "{00112233-4455-6677-8899-aAbBcCdDeEfF}"))
      = Return g.
Proof.
  split; [reflexivity|].
  apply (parse_case_insensitive wchar_t (c_str "{00112233-4455-6677-8899-aAbBcCdDeEfF}")).
  - discriminate.
  - reflexivity.
Defined.

(** * Further properties of the two headers *)

(** ** Byte codec: from bytes to a guid and back *)

Lemma list16 (u : list Z) :
  length u = 16%nat ->
  exists b0 b1 b2 b3 b4 b5 b6 b7 b8 b9 b10 b11 b12 b13 b14 b15,
    u = [b0; b1; b2; b3; b4; b5; b6; b7; b8; b9; b10; b11; b12; b13; b14; b15].
Proof.
  intros H.
  do 16 (destruct u as [|? u]; [discriminate H|]).
  destruct u; [|discriminate H].
  repeat eexists.
Qed.

Lemma split32_be b0 b1 b2 b3 :
  byte_ok b0 -> byte_ok b1 -> byte_ok b2 -> byte_ok b3 ->
  let d := u32 (b0 * 0x01000000 + b1 * 0x00010000 + b2 * 0x00000100 + b3) in
  0 <= d < 2 ^ 32 /\
  u8 (Z.shiftr d 24) = b0 /\ u8 (Z.shiftr d 16) = b1 /\
  u8 (Z.shiftr d 8) = b2 /\ u8 d = b3.
Proof.
  intros H0 H1 H2 H3 d. subst d. unfold byte_ok in *.
  rewrite u32_small by lia.
  unfold u8, cast, uint8_t, wrap_unsigned; cbn [is_signed bits].
  rewrite !Z.shiftr_div_pow2 by lia.
  change (2 ^ 32) with 4294967296. change (2 ^ 24) with 16777216.
  change (2 ^ 16) with 65536. change (2 ^ 8) with 256.
  repeat split; try lia; Z.div_mod_to_equations; lia.
Qed.

Lemma split16_be b0 b1 :
  byte_ok b0 -> byte_ok b1 ->
  let d := u16 (u32 (b0 * 0x0100 + b1)) in
  0 <= d < 2 ^ 16 /\ u8 (Z.shiftr d 8) = b0 /\ u8 d = b1.
Proof.
  intros H0 H1 d. subst d. unfold byte_ok in *.
  rewrite u32_small by lia. rewrite u16_small by lia.
  unfold u8, cast, uint8_t, wrap_unsigned; cbn [is_signed bits].
  rewrite !Z.shiftr_div_pow2 by lia.
  change (2 ^ 16) with 65536. change (2 ^ 8) with 256.
  repeat split; try lia; Z.div_mod_to_equations; lia.
Qed.

(** X1: decoding sixteen bytes as Variant-1 gives a guid whose fields are in
    range, and encoding that guid as Variant-1 gives the sixteen bytes back. *)
Theorem encode_decode_variant1 (u : list Z) :
  length u = 16%nat -> Forall byte_ok u ->
  valid_guid (decode_guid_from_variant1 u) /\
  encode_guid_as_variant1 (decode_guid_from_variant1 u) = u.
Proof.
  intros Hl F.
  destruct (list16 u Hl)
    as (b0 & b1 & b2 & b3 & b4 & b5 & b6 & b7 & b8 & b9 & b10 & b11 & b12 & b13 & b14 & b15 & ->).
  repeat match goal with F : Forall _ (_ :: _) |- _ => inversion_clear F end.
  destruct (split32_be b0 b1 b2 b3) as (R1 & E0 & E1 & E2 & E3); try assumption.
  destruct (split16_be b4 b5) as (R2 & E4 & E5); try assumption.
  destruct (split16_be b6 b7) as (R3 & E6 & E7); try assumption.
  split.
  - constructor; cbn [decode_guid_from_variant1 Data1 Data2 Data3 Data4 at_ nth];
      try assumption; [reflexivity|].
    repeat (apply Forall_cons; [assumption|]). apply Forall_nil.
  - unfold encode_guid_as_variant1, Data4_at.
    cbn [decode_guid_from_variant1 Data1 Data2 Data3 Data4 at_ nth].
    rewrite E0, E1, E2, E3, E4, E5, E6, E7. reflexivity.
Qed.

Lemma encode_decode_variant1_witness :
  valid_guid (decode_guid_from_variant1 (encode_guid_as_variant1 example_guid)) /\
  encode_guid_as_variant1 (decode_guid_from_variant1 (encode_guid_as_variant1 example_guid))
  = encode_guid_as_variant1 example_guid.
Proof.
  apply (encode_decode_variant1 (encode_guid_as_variant1 example_guid)).
  - reflexivity.
  - unfold encode_guid_as_variant1, encode_guid_as_variant2.
    repeat (apply Forall_cons; [unfold byte_ok; vm_compute; split; [discriminate | reflexivity]|]).
    apply Forall_nil.
Defined.

(** X2: decoding sixteen bytes as Variant-2 gives a guid whose fields are in
    range, and encoding that guid as Variant-2 gives the sixteen bytes back. *)
Theorem encode_decode_variant2 (u : list Z) :
  length u = 16%nat -> Forall byte_ok u ->
  valid_guid (decode_guid_from_variant2 u) /\
  encode_guid_as_variant2 (decode_guid_from_variant2 u) = u.
Proof.
  intros Hl F.
  destruct (list16 u Hl)
    as (b0 & b1 & b2 & b3 & b4 & b5 & b6 & b7 & b8 & b9 & b10 & b11 & b12 & b13 & b14 & b15 & ->).
  repeat match goal with F : Forall _ (_ :: _) |- _ => inversion_clear F end.
  destruct (split32_be b3 b2 b1 b0) as (R1 & E3 & E2 & E1 & E0); try assumption.
  destruct (split16_be b5 b4) as (R2 & E5 & E4); try assumption.
  destruct (split16_be b7 b6) as (R3 & E7 & E6); try assumption.
  assert (D1 : b0 + b1 * 0x00000100 + b2 * 0x00010000 + b3 * 0x01000000
               = b3 * 0x01000000 + b2 * 0x00010000 + b1 * 0x00000100 + b0) by lia.
  assert (D2 : b4 + b5 * 0x0100 = b5 * 0x0100 + b4) by lia.
  assert (D3 : b6 + b7 * 0x0100 = b7 * 0x0100 + b6) by lia.
  split.
  - constructor; cbn [decode_guid_from_variant2 Data1 Data2 Data3 Data4 at_ nth];
      rewrite ?D1, ?D2, ?D3; try assumption; [reflexivity|].
    repeat (apply Forall_cons; [assumption|]). apply Forall_nil.
  - unfold encode_guid_as_variant2, Data4_at.
    cbn [decode_guid_from_variant2 Data1 Data2 Data3 Data4 at_ nth].
    rewrite D1, D2, D3, E0, E1, E2, E3, E4, E5, E6, E7. reflexivity.
Qed.

Lemma encode_decode_variant2_witness :
  valid_guid (decode_guid_from_variant2 (encode_guid_as_variant2 example_guid)) /\
  encode_guid_as_variant2 (decode_guid_from_variant2 (encode_guid_as_variant2 example_guid))
  = encode_guid_as_variant2 example_guid.
Proof.
  apply (encode_decode_variant2 (encode_guid_as_variant2 example_guid)).
  - reflexivity.
  - unfold encode_guid_as_variant1, encode_guid_as_variant2.
    repeat (apply Forall_cons; [unfold byte_ok; vm_compute; split; [discriminate | reflexivity]|]).
    apply Forall_nil.
Defined.

(** ** Equality and ordering of guids *)

Lemma memcmp_refl (n : nat) : forall l, memcmp l l n = 0.
Proof.
  induction n as [|n IH]; intros l; [reflexivity|].
  cbn [memcmp]. rewrite Z.ltb_irrefl. apply IH.
Qed.

(** X3: on guids whose fields are in range, operator== holds exactly when
    the two guids have the same fields, whatever the byte order of the host,
    and operator!= holds exactly when they differ. *)
Theorem guid_eq_structural (o : byte_order) (a b : guid) :
  valid_guid a -> valid_guid b ->
  (guid_eq o a b = true <-> a = b) /\
  (guid_ne o a b = true <-> a <> b).
Proof.
  intros Ha Hb.
  assert (E : guid_eq o a b = true <-> a = b).
  { split.
    - apply guid_eq_true; assumption.
    - intros ->. unfold guid_eq. rewrite memcmp_refl. reflexivity. }
  split; [exact E|].
  unfold guid_ne. destruct (guid_eq o a b); cbn [negb].
  - split; [discriminate|]. intros N. exfalso. apply N, E. reflexivity.
  - split; [|reflexivity]. intros _ N. apply E in N. discriminate N.
Qed.

Lemma guid_eq_structural_witness :
  valid_guid guid_null /\ valid_guid example_guid /\
  (guid_eq big_endian guid_null example_guid = true <-> guid_null = example_guid) /\
  (guid_ne big_endian guid_null example_guid = true <-> guid_null <> example_guid).
Proof.
  assert (Hn : valid_guid guid_null).
  { constructor; cbn; try lia. repeat (apply Forall_cons; [unfold byte_ok; lia|]). apply Forall_nil. }
  split; [exact Hn|]. split; [exact example_guid_valid|].
  apply (guid_eq_structural big_endian guid_null example_guid Hn example_guid_valid).
Defined.

Lemma guid_lt_cases a b :
  guid_lt a b = true <->
  Data1 a < Data1 b \/
  (Data1 a = Data1 b /\
   (Data2 a < Data2 b \/
    (Data2 a = Data2 b /\
     (Data3 a < Data3 b \/
      (Data3 a = Data3 b /\ (memcmp (Data4 a) (Data4 b) 8 <? 0) = true))))).
Proof.
  unfold guid_lt.
  destruct (Z.ltb_spec (Data1 a) (Data1 b)); [split; [intros _; left; assumption | reflexivity]|].
  destruct (Z.eqb_spec (Data1 a) (Data1 b));
    [|split; [discriminate | intros [?|[? _]]; lia]].
  destruct (Z.ltb_spec (Data2 a) (Data2 b)); [split; [intros _; tauto | reflexivity]|].
  destruct (Z.eqb_spec (Data2 a) (Data2 b));
    [|split; [discriminate | intros [?|[_ [?|[? _]]]]; lia]].
  destruct (Z.ltb_spec (Data3 a) (Data3 b)); [split; [intros _; tauto | reflexivity]|].
  destruct (Z.eqb_spec (Data3 a) (Data3 b));
    [|split; [discriminate | intros [?|[_ [?|[_ [?|[? _]]]]]]; lia]].
  split; [tauto|]. intros [?|[_ [?|[_ [?|[_ ?]]]]]]; first [lia | assumption].
Qed.

Lemma lex_lt_irrefl : forall l, ~ lex_lt l l.
Proof.
  induction l as [|x l IH]; cbn [lex_lt]; [tauto|]. intros [H|[_ H]]; [lia | exact (IH H)].
Qed.

Lemma lex_lt_trans : forall l m r, lex_lt l m -> lex_lt m r -> lex_lt l r.
Proof.
  induction l as [|x l IH]; intros [|y m] [|z r]; cbn [lex_lt]; try tauto.
  intros [H1|[E1 H1]] [H2|[E2 H2]]; try (left; lia).
  right. split; [lia|]. exact (IH _ _ H1 H2).
Qed.

Lemma lex_lt_total : forall l r,
  length l = length r -> lex_lt l r \/ l = r \/ lex_lt r l.
Proof.
  induction l as [|x l IH]; intros [|y r] H; try discriminate H; cbn [lex_lt].
  - right; left; reflexivity.
  - injection H as H. destruct (Z.lt_total x y) as [L|[E|G]]; [tauto| |tauto].
    subst y. destruct (IH r H) as [L|[E'|G]]; [tauto| |tauto].
    right; left. congruence.
Qed.

Lemma memcmp_Data4 a b :
  valid_guid a -> valid_guid b ->
  ((memcmp (Data4 a) (Data4 b) 8 <? 0) = true <-> lex_lt (Data4 a) (Data4 b)).
Proof.
  intros Ha Hb. apply memcmp_lex;
    [apply valid_Data4_size | apply valid_Data4_size | apply valid_Data4 | apply valid_Data4];
    assumption.
Qed.

(** X4: operator< is a strict total order on guids whose fields are in
    range: no guid is below itself, the relation is transitive, and of two
    different guids one is below the other. *)
Theorem guid_lt_strict_total_order (a b c : guid) :
  valid_guid a -> valid_guid b -> valid_guid c ->
  guid_lt a a = false /\
  (guid_lt a b = true -> guid_lt b c = true -> guid_lt a c = true) /\
  (guid_lt a b = true -> guid_lt b a = false) /\
  (guid_lt a b = true \/ a = b \/ guid_lt b a = true).
Proof.
  intros Ha Hb Hc.
  pose proof (memcmp_Data4 a a Ha Ha) as Maa. pose proof (memcmp_Data4 a b Ha Hb) as Mab.
  pose proof (memcmp_Data4 b c Hb Hc) as Mbc. pose proof (memcmp_Data4 a c Ha Hc) as Mac.
  pose proof (memcmp_Data4 b a Hb Ha) as Mba.
  pose proof (lex_lt_irrefl (Data4 a)) as I.
  pose proof (lex_lt_trans (Data4 a) (Data4 b) (Data4 c)) as Tr.
  pose proof (lex_lt_trans (Data4 a) (Data4 b) (Data4 a)) as As.
  assert (To : lex_lt (Data4 a) (Data4 b) \/ Data4 a = Data4 b \/ lex_lt (Data4 b) (Data4 a)).
  { apply lex_lt_total. rewrite (valid_Data4_size a Ha), (valid_Data4_size b Hb). reflexivity. }
  assert (Irr : guid_lt a a = false).
  { destruct (guid_lt a a) eqn:E; [|reflexivity]. apply guid_lt_cases in E.
    rewrite Maa in E. exfalso. intuition lia. }
  split; [exact Irr|]. split; [|split].
  - rewrite !guid_lt_cases, Mab, Mbc, Mac. intros H1 H2.
    destruct H1 as [?|[? [?|[? [?|[? ?]]]]]], H2 as [?|[? [?|[? [?|[? ?]]]]]];
      try (left; lia); try (right; split; [lia|]; left; lia);
      try (right; split; [lia|]; right; split; [lia|]; left; lia).
    right; split; [lia|]. right; split; [lia|]. right; split; [lia|]. auto.
  - intros H1. destruct (guid_lt b a) eqn:H2; [|reflexivity]. exfalso.
    apply guid_lt_cases in H1, H2. rewrite Mab in H1. rewrite Mba in H2.
    destruct H1 as [?|[? [?|[? [?|[? ?]]]]]], H2 as [?|[? [?|[? [?|[? ?]]]]]]; try lia.
    apply I. auto.
  - rewrite !guid_lt_cases, Mab, Mba.
    destruct (Z.lt_total (Data1 a) (Data1 b)) as [?|[E1|?]]; [tauto| |right; right; left; lia].
    destruct (Z.lt_total (Data2 a) (Data2 b)) as [?|[E2|?]];
      [tauto| |right; right; right; split; [lia|]; left; lia].
    destruct (Z.lt_total (Data3 a) (Data3 b)) as [?|[E3|?]];
      [tauto| |right; right; right; split; [lia|]; right; split; [lia|]; left; lia].
    destruct To as [L|[E4|G]].
    + tauto.
    + right; left. destruct a, b; cbn in *; congruence.
    + right; right. right; split; [lia|]. right; split; [lia|]. right; split; [lia|]. exact G.
Qed.

Lemma guid_lt_strict_total_order_witness :
  guid_lt guid_null guid_null = false /\
  (guid_lt guid_null example_guid = true \/ guid_null = example_guid \/
   guid_lt example_guid guid_null = true).
Proof.
  assert (Hn : valid_guid guid_null).
  { constructor; cbn; try lia. repeat (apply Forall_cons; [unfold byte_ok; lia|]). apply Forall_nil. }
  destruct (guid_lt_strict_total_order guid_null example_guid example_guid
              Hn example_guid_valid example_guid_valid) as (I & _ & _ & T).
  split; [exact I | exact T].
Defined.

(** ** Ordering and the Variant-1 bytes *)

Lemma encode_variant1_ok g : valid_guid g -> Forall byte_ok (encode_guid_as_variant1 g).
Proof. intros H. rewrite <- (object_bytes_variant big_endian). apply object_bytes_ok. exact H. Qed.

Lemma bytes32_be d :
  0 <= d < 2 ^ 32 ->
  d = u8 (Z.shiftr d 24) * 16777216 + u8 (Z.shiftr d 16) * 65536
      + u8 (Z.shiftr d 8) * 256 + u8 d.
Proof.
  intros H. pose proof (be32_roundtrip d H) as R.
  rewrite u32_small in R; [symmetry; exact R|].
  pose proof (u8_range (Z.shiftr d 24)). pose proof (u8_range (Z.shiftr d 16)).
  pose proof (u8_range (Z.shiftr d 8)). pose proof (u8_range d). lia.
Qed.

Lemma bytes16_be d :
  0 <= d < 2 ^ 16 -> d = u8 (Z.shiftr d 8) * 256 + u8 d.
Proof.
  intros H. pose proof (be16_roundtrip d H) as R.
  pose proof (u8_range (Z.shiftr d 8)). pose proof (u8_range d).
  rewrite u32_small, u16_small in R by lia. symmetry; exact R.
Qed.

Lemma lex_lt_be32 a0 a1 a2 a3 b0 b1 b2 b3 (P : Prop) :
  byte_ok a0 -> byte_ok a1 -> byte_ok a2 -> byte_ok a3 ->
  byte_ok b0 -> byte_ok b1 -> byte_ok b2 -> byte_ok b3 ->
  (a0 < b0 \/ a0 = b0 /\ (a1 < b1 \/ a1 = b1 /\ (a2 < b2 \/ a2 = b2 /\ (a3 < b3 \/ a3 = b3 /\ P))))
  <->
  (a0 * 16777216 + a1 * 65536 + a2 * 256 + a3 < b0 * 16777216 + b1 * 65536 + b2 * 256 + b3 \/
   a0 * 16777216 + a1 * 65536 + a2 * 256 + a3 = b0 * 16777216 + b1 * 65536 + b2 * 256 + b3 /\ P).
Proof.
  unfold byte_ok. intros. split.
  - intros [?|[? [?|[? [?|[? [?|[? ?]]]]]]]]; try (left; lia). right. split; [lia | assumption].
  - intros [L|[E Hp]].
    + destruct (Z.lt_total a0 b0) as [?|[?|?]]; [tauto| |lia]. right; split; [assumption|].
      destruct (Z.lt_total a1 b1) as [?|[?|?]]; [tauto| |lia]. right; split; [assumption|].
      destruct (Z.lt_total a2 b2) as [?|[?|?]]; [tauto| |lia]. right; split; [assumption|].
      left. lia.
    + assert (a0 = b0) by lia. assert (a1 = b1) by lia. assert (a2 = b2) by lia.
      assert (a3 = b3) by lia. tauto.
Qed.

Lemma lex_lt_be16 a0 a1 b0 b1 (P : Prop) :
  byte_ok a0 -> byte_ok a1 -> byte_ok b0 -> byte_ok b1 ->
  (a0 < b0 \/ a0 = b0 /\ (a1 < b1 \/ a1 = b1 /\ P))
  <->
  (a0 * 256 + a1 < b0 * 256 + b1 \/ a0 * 256 + a1 = b0 * 256 + b1 /\ P).
Proof.
  unfold byte_ok. intros. split.
  - intros [?|[? [?|[? ?]]]]; try (left; lia). right. split; [lia | assumption].
  - intros [L|[E Hp]].
    + destruct (Z.lt_total a0 b0) as [?|[?|?]]; [tauto| |lia]. right; split; [assumption|].
      left. lia.
    + assert (a0 = b0) by lia. assert (a1 = b1) by lia. tauto.
Qed.

(** X5: operator< orders guids as memcmp orders their Variant-1
    (big-endian) encodings; it does not order them as memcmp orders their
    Variant-2 encodings, which is why the fields are compared one by one. *)
Theorem guid_lt_is_variant1_byte_order (a b : guid) :
  valid_guid a -> valid_guid b ->
  guid_lt a b =
    (memcmp (encode_guid_as_variant1 a) (encode_guid_as_variant1 b) 16 <? 0) /\
  guid_lt Data1_low Data1_high = true /\
  (memcmp (encode_guid_as_variant2 Data1_low) (encode_guid_as_variant2 Data1_high) 16 <? 0)
    = false.
Proof.
  intros Ha Hb. split; [|split; reflexivity].
  apply eq_true_iff_eq.
  rewrite (memcmp_lex 16) by (try reflexivity; apply encode_variant1_ok; assumption).
  rewrite guid_lt_cases, (memcmp_Data4 a b Ha Hb).
  pose proof (bytes32_be _ (valid_Data1 a Ha)) as A1.
  pose proof (bytes16_be _ (valid_Data2 a Ha)) as A2.
  pose proof (bytes16_be _ (valid_Data3 a Ha)) as A3.
  pose proof (bytes32_be _ (valid_Data1 b Hb)) as B1.
  pose proof (bytes16_be _ (valid_Data2 b Hb)) as B2.
  pose proof (bytes16_be _ (valid_Data3 b Hb)) as B3.
  rewrite <- (Data4_rebuild a Ha) at 1. rewrite <- (Data4_rebuild b Hb) at 1.
  unfold encode_guid_as_variant1.
  pose proof (u8_range (Z.shiftr (Data1 a) 24)). pose proof (u8_range (Z.shiftr (Data1 a) 16)).
  pose proof (u8_range (Z.shiftr (Data1 a) 8)). pose proof (u8_range (Data1 a)).
  pose proof (u8_range (Z.shiftr (Data2 a) 8)). pose proof (u8_range (Data2 a)).
  pose proof (u8_range (Z.shiftr (Data3 a) 8)). pose proof (u8_range (Data3 a)).
  pose proof (u8_range (Z.shiftr (Data1 b) 24)). pose proof (u8_range (Z.shiftr (Data1 b) 16)).
  pose proof (u8_range (Z.shiftr (Data1 b) 8)). pose proof (u8_range (Data1 b)).
  pose proof (u8_range (Z.shiftr (Data2 b) 8)). pose proof (u8_range (Data2 b)).
  pose proof (u8_range (Z.shiftr (Data3 b) 8)). pose proof (u8_range (Data3 b)).
  set (a0 := u8 (Z.shiftr (Data1 a) 24)) in *. set (a1 := u8 (Z.shiftr (Data1 a) 16)) in *.
  set (a2 := u8 (Z.shiftr (Data1 a) 8)) in *. set (a3 := u8 (Data1 a)) in *.
  set (a4 := u8 (Z.shiftr (Data2 a) 8)) in *. set (a5 := u8 (Data2 a)) in *.
  set (a6 := u8 (Z.shiftr (Data3 a) 8)) in *. set (a7 := u8 (Data3 a)) in *.
  set (b0 := u8 (Z.shiftr (Data1 b) 24)) in *. set (b1 := u8 (Z.shiftr (Data1 b) 16)) in *.
  set (b2 := u8 (Z.shiftr (Data1 b) 8)) in *. set (b3 := u8 (Data1 b)) in *.
  set (b4 := u8 (Z.shiftr (Data2 b) 8)) in *. set (b5 := u8 (Data2 b)) in *.
  set (b6 := u8 (Z.shiftr (Data3 b) 8)) in *. set (b7 := u8 (Data3 b)) in *.
  clearbody a0 a1 a2 a3 a4 a5 a6 a7 b0 b1 b2 b3 b4 b5 b6 b7.
  rewrite A1, A2, A3, B1, B2, B3.
  cbn [lex_lt].
  rewrite (lex_lt_be32 a0 a1 a2 a3 b0 b1 b2 b3) by assumption.
  rewrite (lex_lt_be16 a4 a5 b4 b5) by assumption.
  rewrite (lex_lt_be16 a6 a7 b6 b7) by assumption.
  tauto.
Qed.

Lemma guid_lt_is_variant1_byte_order_witness :
  valid_guid Data1_low /\ valid_guid Data1_high /\
  guid_lt Data1_low Data1_high =
    (memcmp (encode_guid_as_variant1 Data1_low) (encode_guid_as_variant1 Data1_high) 16 <? 0).
Proof.
  assert (Hl : valid_guid Data1_low).
  { constructor; cbn; try lia. repeat (apply Forall_cons; [unfold byte_ok; lia|]). apply Forall_nil. }
  assert (Hh : valid_guid Data1_high).
  { constructor; cbn; try lia. repeat (apply Forall_cons; [unfold byte_ok; lia|]). apply Forall_nil. }
  split; [exact Hl|]. split; [exact Hh|].
  exact (proj1 (guid_lt_is_variant1_byte_order Data1_low Data1_high Hl Hh)).
Defined.

(** ** Text codec: the parser and the grammar *)

Lemma nth_error_skipn (buf : list Z) : forall b c,
  nth_error buf b = Some c -> skipn b buf = c :: skipn (S b) buf.
Proof.
  induction buf as [|x buf IH]; intros b c H.
  - destruct b; discriminate H.
  - destruct b as [|b].
    + cbn in H. injection H as ->. reflexivity.
    + cbn [nth_error] in H. cbn [skipn]. rewrite (IH b c H). reflexivity.
Qed.

Lemma scan_layout_returns buf : forall l b q,
  scan (map action_of_slot l) buf b = Return q ->
  matches_layout l (skipn b buf) = true /\ q = (b + length l)%nat.
Proof.
  induction l as [|s l IH]; intros b q H.
  - cbn in H. injection H as <-. split; [reflexivity | cbn; lia].
  - cbn [map scan] in H. destruct (nth_error buf b) as [c|] eqn:E; [|discriminate H].
    rewrite (nth_error_skipn buf b c E). cbn [matches_layout length].
    destruct s; cbn [action_of_slot slot_matches] in *.
    + destruct (is_hex_digit c); [|discriminate H].
      destruct (IH _ _ H) as [M ->]. split; [exact M | lia].
    + destruct (c =? lit "-"); [|discriminate H].
      destruct (IH _ _ H) as [M ->]. split; [exact M | lia].
Qed.

Lemma scan_layout_stop buf : forall l p b s c,
  nth_error l p = Some s ->
  matches_layout (firstn p l) (skipn b buf) = true ->
  nth_error buf (b + p) = Some c ->
  slot_matches s c = false ->
  scan (map action_of_slot l) buf b = Throw (parse_error (slot_message s) (b + p)).
Proof.
  induction l as [|s0 l IH]; intros p b s c Hp Hm Hc Hx.
  - destruct p; discriminate Hp.
  - destruct p as [|p].
    + cbn in Hp. injection Hp as ->. rewrite Nat.add_0_r in *.
      cbn [map scan]. rewrite Hc.
      destruct s; cbn [action_of_slot slot_matches slot_message] in *; rewrite Hx; reflexivity.
    + cbn [nth_error] in Hp. cbn [firstn matches_layout] in Hm.
      destruct (skipn b buf) as [|c0 rest] eqn:E; [discriminate|].
      apply skipn_cons in E. destruct E as [E1 E2].
      apply andb_prop in Hm. destruct Hm as [Hs Hl]. rewrite <- E2 in Hl.
      replace (b + S p)%nat with (S b + p)%nat in * by lia.
      cbn [map scan]. rewrite E1.
      destruct s0; cbn [action_of_slot slot_matches] in *; rewrite Hs;
        apply (IH p (S b) s c Hp Hl Hc Hx).
Qed.

Lemma parse_guid_empty T : parse_guid T [] = OutOfBounds.
Proof. reflexivity. Qed.

(* the outcome of parse_guid is the outcome of its actions *)
Lemma parse_guid_scan T str :
  8 <= bits T -> str <> [] ->
  match scan (parse_actions str) str (brace_offset str) with
  | Return _ => exists g, parse_guid T str = Return g
  | Throw e => parse_guid T str = Throw e
  | Abort => parse_guid T str = Abort
  | OutOfBounds => parse_guid T str = OutOfBounds
  end.
Proof.
  intros T_wide Hne. unfold parse_guid. rewrite (parse_opening T T_wide str Hne).
  pose proof (follows_bind _ _ _ _ (follows_parse_fields T T_wide)
                (fun parsed => follows_closing T parsed (brace_offset str) T_wide)
                str (brace_offset str)) as F.
  unfold parse_actions, closing_actions.
  destruct (scan _ str (brace_offset str)) as [q|e| |].
  - destruct F as [v ->]. exists v. reflexivity.
  - rewrite F. reflexivity.
  - rewrite F. reflexivity.
  - rewrite F. reflexivity.
Qed.

Lemma well_formed_scan str :
  well_formed str = true <->
  exists q, scan (parse_actions str) str (brace_offset str) = Return q.
Proof.
  unfold well_formed, parse_actions. rewrite scan_app.
  assert (B : brace_offset str = 0%nat \/ brace_offset str = 1%nat).
  { destruct str as [|x rest]; [left; reflexivity|].
    cbn [brace_offset]. destruct (x =? lit "{"); [right | left]; reflexivity. }
  split.
  - intros H. apply andb_prop in H. destruct H as [Hb Hc].
    rewrite (scan_layout_pass str body_layout _ Hb). cbn [obind].
    destruct B as [B|B]; rewrite B in *; cbn [Nat.add length body_layout repeat app
                                                closing_actions scan].
    + destruct (nth_error str 36) as [c|]; [|discriminate Hc]. rewrite Hc. eexists; reflexivity.
    + destruct (nth_error str 37) as [c|]; [|discriminate Hc].
      destruct (nth_error str 38) as [z|]; [|discriminate Hc].
      apply andb_prop in Hc. destruct Hc as [Hc Hz]. rewrite Hc, Hz. eexists; reflexivity.
  - intros [q H].
    destruct (scan (map action_of_slot body_layout) str (brace_offset str)) as [q0| | |] eqn:S0;
      try discriminate H.
    apply scan_layout_returns in S0. destruct S0 as [M ->]. rewrite M. cbn [andb obind] in *.
    destruct B as [B|B]; rewrite B in *; cbn [Nat.add length body_layout repeat app
                                                closing_actions scan] in H.
    + destruct (nth_error str 36) as [c|]; [|discriminate H].
      destruct (c =? 0); [reflexivity | discriminate H].
    + destruct (nth_error str 37) as [c|]; [|discriminate H].
      destruct (c =? lit "}"); [|discriminate H].
      destruct (nth_error str 38) as [z|]; [|discriminate H].
      destruct (z =? 0); [reflexivity | discriminate H].
Qed.

Lemma parse_returns_well_formed T str g :
  8 <= bits T -> parse_guid T str = Return g -> well_formed str = true.
Proof.
  intros T_wide Hg. destruct str as [|x rest]; [discriminate Hg|].
  apply well_formed_scan.
  pose proof (parse_guid_scan T (x :: rest) T_wide) as F.
  destruct (scan (parse_actions (x :: rest)) (x :: rest) (brace_offset (x :: rest)))
    as [q|e| |]; [exists q; reflexivity | ..];
    rewrite F in Hg by discriminate; discriminate Hg.
Qed.

(** X6: parse_guid returns a guid exactly for the texts of the grammar:
    an optional opening brace, the body hex8-hex4-hex4-hex4-hex12, the
    closing brace if and only if one was opened, then the terminator. *)
Theorem parse_guid_accepts_grammar (T : int_type) (str : list Z) :
  8 <= bits T ->
  ((exists g, parse_guid T str = Return g) <-> well_formed str = true).
Proof.
  intros T_wide. split.
  - intros [g Hg]. exact (parse_returns_well_formed T str g T_wide Hg).
  - apply well_formed_parses. exact T_wide.
Qed.

Lemma parse_guid_accepts_grammar_witness :
  (exists g, parse_guid char (c_str "00112233-4455-6677-8899-AABBCCDDEEFF") = Return g) <->
  well_formed (c_str "00112233-4455-6677-8899-AABBCCDDEEFF") = true.
Proof.
  apply (parse_guid_accepts_grammar char (c_str "00112233-4455-6677-8899-AABBCCDDEEFF")).
  discriminate.
Defined.

Lemma parse_guid_throws T str e :
  8 <= bits T -> str <> [] ->
  scan (parse_actions str) str (brace_offset str) = Throw e ->
  parse_guid T str = Throw e.
Proof.
  intros T_wide Hne H. pose proof (parse_guid_scan T str T_wide Hne) as F.
  rewrite H in F. exact F.
Qed.

(** X7: when a code unit other than '-' stands where the grammar requires a
    separator (the text before it being well formed), parse_guid throws a
    parse_error with the message "Improperly formatted guid!" whose
    parsePoint is the position of that code unit. *)
Theorem parse_rejects_missing_separator (T : int_type) (str : list Z) (p : nat) (c : Z) :
  8 <= bits T ->
  nth_error body_layout p = Some dash_slot ->
  matches_layout (firstn p body_layout) (skipn (brace_offset str) str) = true ->
  nth_error str (brace_offset str + p) = Some c ->
  c <> lit "-" ->
  parse_guid T str =
  Throw (parse_error "Improperly formatted guid!" (brace_offset str + p)).
Proof.
  intros T_wide Hp Hm Hc Hx.
  assert (Hne : str <> []) by (intros ->; destruct p; discriminate Hc).
  apply (parse_guid_throws T str _ T_wide Hne).
  unfold parse_actions. rewrite scan_app.
  rewrite (scan_layout_stop str body_layout p (brace_offset str) dash_slot c Hp Hm Hc);
    [reflexivity|].
  apply Z.eqb_neq. exact Hx.
Qed.

Lemma parse_rejects_missing_separator_witness :
  parse_guid char (c_str "{00112233+4455-6677-8899-aabbccddeeff}") =
  Throw (parse_error "Improperly formatted guid!" 9).
Proof.
  apply (parse_rejects_missing_separator char
           (c_str "{00112233+4455-6677-8899-aabbccddeeff}") 8 (lit "+")).
  - discriminate.
  - reflexivity.
  - reflexivity.
  - reflexivity.
  - discriminate.
Defined.

(** X8: after a well-formed body, parse_guid throws a parse_error with the
    message "Improperly formatted guid!": at the code unit after the body
    when a brace was opened and that unit is not the closing brace; at the
    unit after the closing brace when that unit is not the terminator; and,
    when no brace was opened, at the unit after the body when it is not the
    terminator (a closing brace there included). *)
Theorem parse_rejects_bad_ending (T : int_type) (str : list Z) (c : Z) :
  8 <= bits T ->
  matches_layout body_layout (skipn (brace_offset str) str) = true ->
  (brace_offset str = 1%nat -> nth_error str 37 = Some c -> c <> lit "}" ->
   parse_guid T str = Throw (parse_error "Improperly formatted guid!" 37)) /\
  (brace_offset str = 1%nat -> nth_error str 37 = Some (lit "}") ->
   nth_error str 38 = Some c -> c <> 0 ->
   parse_guid T str = Throw (parse_error "Improperly formatted guid!" 38)) /\
  (brace_offset str = 0%nat -> nth_error str 36 = Some c -> c <> 0 ->
   parse_guid T str = Throw (parse_error "Improperly formatted guid!" 36)).
Proof.
  intros T_wide Hm.
  assert (Hne : str <> []).
  { intros ->. rewrite skipn_nil in Hm. discriminate Hm. }
  assert (S0 : scan (parse_actions str) str (brace_offset str) =
               scan (closing_actions (brace_offset str)) str (brace_offset str + 36)).
  { unfold parse_actions. rewrite scan_app, (scan_layout_pass str body_layout _ Hm).
    reflexivity. }
  repeat split; intros B; rewrite B in S0; cbn [Nat.add closing_actions scan] in S0.
  - intros Hc Hx. apply (parse_guid_throws T str _ T_wide Hne). rewrite B, S0, Hc.
    apply Z.eqb_neq in Hx. rewrite Hx. reflexivity.
  - intros Hb Hc Hx. apply (parse_guid_throws T str _ T_wide Hne). rewrite B, S0, Hb, Hc.
    apply Z.eqb_neq in Hx. rewrite Z.eqb_refl, Hx. reflexivity.
  - intros Hc Hx. apply (parse_guid_throws T str _ T_wide Hne). rewrite B, S0, Hc.
    apply Z.eqb_neq in Hx. rewrite Hx. reflexivity.
Qed.

Lemma parse_rejects_bad_ending_witness :
  parse_guid char (c_str "{00112233-4455-6677-8899-aabbccddeeff") =
    Throw (parse_error "Improperly formatted guid!" 37) /\
  parse_guid char (c_str "{00112233-4455-6677-8899-aabbccddeeff}x") =
    Throw (parse_error "Improperly formatted guid!" 38) /\
  parse_guid char (c_str "00112233-4455-6677-8899-aabbccddeeff}") =
    Throw (parse_error "Improperly formatted guid!" 36).
Proof.
  split; [|split].
  - apply (proj1 (parse_rejects_bad_ending char
                    (c_str "{00112233-4455-6677-8899-aabbccddeeff") 0
                    ltac:(discriminate) eq_refl)); [reflexivity | reflexivity | discriminate].
  - apply (proj1 (proj2 (parse_rejects_bad_ending char
                    (c_str "{00112233-4455-6677-8899-aabbccddeeff}x") (lit "x")
                    ltac:(discriminate) eq_refl)));
      [reflexivity | reflexivity | reflexivity | discriminate].
  - apply (proj2 (proj2 (parse_rejects_bad_ending char
                    (c_str "00112233-4455-6677-8899-aabbccddeeff}") (lit "}")
                    ltac:(discriminate) eq_refl)));
      [reflexivity | reflexivity | discriminate].
Defined.

(** ** Text codec: the parser stays inside the string *)

Lemma nth_error_before (buf : list Z) k p z :
  nth_error buf k = Some z -> (p <= k)%nat -> exists c, nth_error buf p = Some c.
Proof.
  intros Hk Hp. destruct (nth_error buf p) as [c|] eqn:E; [exists c; reflexivity|].
  apply nth_error_None in E.
  assert (nth_error buf k = None) by (apply nth_error_None; lia). congruence.
Qed.

Lemma scan_before_terminator buf k : forall acts p,
  nth_error buf k = Some 0 -> Forall stops_at_terminator acts -> (p <= k)%nat ->
  (exists q, scan acts buf p = Return q /\ (q <= k)%nat) \/
  (exists msg q, scan acts buf p = Throw (parse_error msg q) /\ (q <= k)%nat).
Proof.
  induction acts as [|a acts IH]; intros p Hk Hs Hp.
  - left. exists p. split; [reflexivity | exact Hp].
  - inversion_clear Hs as [|? ? Ha Hs'].
    destruct (nth_error_before buf k p 0 Hk Hp) as [c Hc].
    cbn [scan]. rewrite Hc.
    assert (Step : c <> 0 -> (S p <= k)%nat).
    { intros N. destruct (Nat.eq_dec p k) as [->|]; [|lia]. congruence. }
    destruct a as [|x]; cbn [stops_at_terminator] in Ha.
    + destruct (is_hex_digit c) eqn:Hx.
      * apply IH; try assumption. apply Step. intros ->. discriminate Hx.
      * right. eexists _, p. split; [reflexivity | exact Hp].
    + destruct (Z.eqb_spec c x) as [->|N].
      * apply IH; try assumption. apply Step. exact Ha.
      * right. eexists _, p. split; [reflexivity | exact Hp].
Qed.

Lemma scan_to_terminator buf k acts p :
  nth_error buf k = Some 0 -> Forall stops_at_terminator acts -> (p <= k)%nat ->
  (exists q, scan (acts ++ [expect 0]) buf p = Return q) \/
  (exists msg q, scan (acts ++ [expect 0]) buf p = Throw (parse_error msg q) /\ (q <= k)%nat).
Proof.
  intros Hk Hs Hp. rewrite scan_app.
  destruct (scan_before_terminator buf k acts p Hk Hs Hp) as [(q & -> & Hq)|(msg & q & -> & Hq)].
  - cbn [obind scan]. destruct (nth_error_before buf k q 0 Hk Hq) as [c ->].
    destruct (c =? 0); [left; eexists; reflexivity | right].
    eexists _, q. split; [reflexivity | exact Hq].
  - right. eexists _, q. split; [reflexivity | exact Hq].
Qed.

Lemma parse_guid_terminated T str k :
  8 <= bits T ->
  nth_error str k = Some 0 ->
  (exists g, parse_guid T str = Return g) \/
  (exists msg p, parse_guid T str = Throw (parse_error msg p) /\ (p <= k)%nat).
Proof.
  intros T_wide Hk.
  assert (Hne : str <> []) by (intros ->; destruct k; discriminate Hk).
  pose proof (parse_guid_scan T str T_wide Hne) as F.
  assert (Hb : (brace_offset str <= k)%nat).
  { destruct str as [|x rest]; [contradiction|]. cbn [brace_offset].
    destruct (Z.eqb_spec x (lit "{")) as [->|]; [|lia].
    destruct k; [discriminate Hk | lia]. }
  assert (S0 : exists acts, parse_actions str = acts ++ [expect 0] /\
                            Forall stops_at_terminator acts).
  { unfold parse_actions, closing_actions. destruct (brace_offset str).
    - eexists. split; [reflexivity|].
      repeat (apply Forall_cons; [cbn; try exact I; discriminate|]). apply Forall_nil.
    - exists (map action_of_slot body_layout ++ [expect (lit "}")]). split.
      + rewrite <- app_assoc. reflexivity.
      + repeat (apply Forall_cons; [cbn; try exact I; discriminate|]). apply Forall_nil. }
  destruct S0 as (acts & E & Hs). rewrite E in F.
  destruct (scan_to_terminator str k acts _ Hk Hs Hb) as [(q & Hq)|(msg & q & Hq & Hle)];
    rewrite Hq in F.
  - left. exact F.
  - right. exists msg, q. split; [exact F | exact Hle].
Qed.

(** X9: on a buffer that holds a terminator, parse_guid neither reads past
    the buffer nor aborts: it returns a guid, or throws a parse_error whose
    parsePoint is at or before that terminator. *)
Theorem parse_guid_stays_in_string (T : int_type) (str : list Z) (k : nat) :
  8 <= bits T ->
  nth_error str k = Some 0 ->
  (exists g, parse_guid T str = Return g) \/
  (exists msg p, parse_guid T str = Throw (parse_error msg p) /\ (p <= k)%nat).
Proof. apply parse_guid_terminated. Qed.

Lemma parse_guid_stays_in_string_witness :
  (exists g, parse_guid wchar_t (c_str "not a guid") = Return g) \/
  (exists msg p, parse_guid wchar_t (c_str "not a guid") = Throw (parse_error msg p) /\
                 (p <= 10)%nat).
Proof.
  apply (parse_guid_stays_in_string wchar_t (c_str "not a guid") 10).
  - discriminate.
  - reflexivity.
Defined.

(** ** Text codec: the value of an accepted text *)

Lemma hex_digit_cases c :
  is_hex_digit c = true -> 48 <= c <= 57 \/ 97 <= c <= 102 \/ 65 <= c <= 70.
Proof.
  unfold is_hex_digit.
  change (lit "0") with 48. change (lit "9") with 57. change (lit "a") with 97.
  change (lit "f") with 102. change (lit "A") with 65. change (lit "F") with 70.
  intros H. split_comparisons; cbn [andb orb] in H; try discriminate H; lia.
Qed.

Lemma hex_value_range c : is_hex_digit c = true -> 0 <= hex_value c < 16.
Proof.
  intros H. apply hex_digit_cases in H. unfold hex_value.
  change (lit "0") with 48. change (lit "9") with 57. change (lit "a") with 97.
  change (lit "A") with 65.
  split_comparisons; lia.
Qed.

Lemma consumes_hex c :
  is_hex_digit c = true -> consumes guid_parser.ParseHalfByte [c] (hex_value c).
Proof.
  intros H pre post. cbn [app length].
  rewrite (ParseHalfByte_at _ _ _ (nth_error_middle pre post c)), H.
  do 2 f_equal. lia.
Qed.

Lemma consumes_after {A} c (m : parser A) l v :
  consumes m l v -> consumes (guid_parser.ParseChar c ;;; m) ([c] ++ l) v.
Proof. intros H. eapply consumes_bind; [apply consumes_ParseChar | exact H]. Qed.

Section Canonical.
Variable T : int_type.
Hypothesis T_wide : 8 <= bits T.

Lemma digit_hex_value c :
  is_hex_digit c = true -> digit T (hex_value c) = to_lower_hex c.
Proof.
  intros H. pose proof (hex_value_range c H) as R. apply hex_digit_cases in H.
  destruct (Z.lt_ge_cases (hex_value c) 10) as [L|G].
  - rewrite (digit_low T _ T_wide) by lia. revert L. unfold hex_value, to_lower_hex.
    change (lit "0") with 48. change (lit "9") with 57. change (lit "a") with 97.
    change (lit "A") with 65. change (lit "F") with 70.
    split_comparisons; cbn [andb]; lia.
  - rewrite (digit_high T _ T_wide) by lia. revert G. unfold hex_value, to_lower_hex.
    change (lit "0") with 48. change (lit "9") with 57. change (lit "a") with 97.
    change (lit "A") with 65. change (lit "F") with 70.
    split_comparisons; cbn [andb]; lia.
Qed.

Lemma canon_byte c1 c2 :
  is_hex_digit c1 = true -> is_hex_digit c2 = true ->
  exists b, byte_ok b /\ consumes guid_parser.ParseByte [c1; c2] b /\
            byte_text T b = [to_lower_hex c1; to_lower_hex c2].
Proof.
  intros H1 H2.
  pose proof (hex_value_range c1 H1) as R1. pose proof (hex_value_range c2 H2) as R2.
  exists (hex_value c1 * 16 + hex_value c2). split; [unfold byte_ok; lia|]. split.
  - unfold guid_parser.ParseByte. change [c1; c2] with ([c1] ++ [c2] ++ []).
    eapply consumes_bind; [apply consumes_hex; assumption|].
    eapply consumes_bind; [apply consumes_hex; assumption|].
    replace (u8 (Z.lor (Z.shiftl (hex_value c1) 4) (hex_value c2)))
      with (hex_value c1 * 16 + hex_value c2); [apply consumes_ret|].
    rewrite lor_shiftl_add by (change (2 ^ 4) with 16; lia).
    change (2 ^ 4) with 16. rewrite u8_small by lia. reflexivity.
  - unfold byte_text.
    replace ((hex_value c1 * 16 + hex_value c2) / 16) with (hex_value c1)
      by (apply Z.div_unique with (hex_value c2); lia).
    replace ((hex_value c1 * 16 + hex_value c2) mod 16) with (hex_value c2)
      by (apply Z.mod_unique with (hex_value c1); lia).
    rewrite !digit_hex_value by assumption. reflexivity.
Qed.

Lemma canon_uint16 c1 c2 c3 c4 :
  is_hex_digit c1 = true -> is_hex_digit c2 = true ->
  is_hex_digit c3 = true -> is_hex_digit c4 = true ->
  exists w, 0 <= w < 65536 /\ consumes guid_parser.ParseUInt16 [c1; c2; c3; c4] w /\
            uint16_text T w = map to_lower_hex [c1; c2; c3; c4].
Proof.
  intros H1 H2 H3 H4.
  destruct (canon_byte c1 c2 H1 H2) as (u & Ru & Cu & Eu).
  destruct (canon_byte c3 c4 H3 H4) as (l & Rl & Cl & El).
  unfold byte_ok in Ru, Rl.
  exists (u * 256 + l). split; [lia|]. split.
  - unfold guid_parser.ParseUInt16. change [c1; c2; c3; c4] with ([c1; c2] ++ [c3; c4] ++ []).
    eapply consumes_bind; [exact Cu|]. eapply consumes_bind; [exact Cl|].
    replace (u16 (Z.lor (Z.shiftl u 8) l)) with (u * 256 + l); [apply consumes_ret|].
    rewrite lor_shiftl_add by (change (2 ^ 8) with 256; lia).
    change (2 ^ 8) with 256. rewrite u16_small by lia. reflexivity.
  - unfold uint16_text.
    replace ((u * 256 + l) / 256) with u by (apply Z.div_unique with l; lia).
    replace ((u * 256 + l) mod 256) with l by (apply Z.mod_unique with u; lia).
    rewrite Eu, El. reflexivity.
Qed.

Lemma canon_uint32 c1 c2 c3 c4 c5 c6 c7 c8 :
  is_hex_digit c1 = true -> is_hex_digit c2 = true ->
  is_hex_digit c3 = true -> is_hex_digit c4 = true ->
  is_hex_digit c5 = true -> is_hex_digit c6 = true ->
  is_hex_digit c7 = true -> is_hex_digit c8 = true ->
  exists d, 0 <= d < 4294967296 /\
            consumes guid_parser.ParseUInt32 [c1; c2; c3; c4; c5; c6; c7; c8] d /\
            uint32_text T d = map to_lower_hex [c1; c2; c3; c4; c5; c6; c7; c8].
Proof.
  intros H1 H2 H3 H4 H5 H6 H7 H8.
  destruct (canon_uint16 c1 c2 c3 c4 H1 H2 H3 H4) as (h & Rh & Ch & Eh).
  destruct (canon_uint16 c5 c6 c7 c8 H5 H6 H7 H8) as (l & Rl & Cl & El).
  exists (h * 65536 + l). split; [lia|]. split.
  - unfold guid_parser.ParseUInt32.
    change [c1; c2; c3; c4; c5; c6; c7; c8] with ([c1; c2; c3; c4] ++ [c5; c6; c7; c8] ++ []).
    eapply consumes_bind; [exact Ch|]. eapply consumes_bind; [exact Cl|].
    replace (u32 (Z.lor (s32 (Z.shiftl h 16)) l)) with (h * 65536 + l); [apply consumes_ret|].
    destruct (s32_shiftl h Rh) as (h' & -> & Hh').
    rewrite lor_shiftl_add by (change (2 ^ 16) with 65536; lia).
    change (2 ^ 16) with 65536.
    unfold u32, cast, uint32_t, wrap_unsigned; cbn [is_signed bits].
    change (2 ^ 32) with 4294967296.
    destruct Hh' as [-> | ->].
    + rewrite Z.mod_small by lia. reflexivity.
    + replace ((h - 65536) * 65536 + l) with (h * 65536 + l + (-1) * 4294967296) by lia.
      rewrite Z.mod_add by lia. rewrite Z.mod_small by lia. reflexivity.
  - unfold uint32_text.
    replace ((h * 65536 + l) / 65536) with h by (apply Z.div_unique with l; lia).
    replace ((h * 65536 + l) mod 65536) with l by (apply Z.mod_unique with h; lia).
    rewrite Eh, El. reflexivity.
Qed.

End Canonical.

Lemma matches_layout_cons s l c cs :
  matches_layout (s :: l) (c :: cs) = true ->
  slot_matches s c = true /\ matches_layout l cs = true.
Proof. cbn [matches_layout]. apply andb_prop. Qed.

Lemma fields_canon T body :
  8 <= bits T ->
  matches_layout body_layout body = true -> length body = 36%nat ->
  exists g, valid_guid g /\ consumes (guid_parser.parse_fields T) body g /\
            guid_text T g = [lit "{"] ++ map to_lower_hex body ++ [lit "}"; 0].
Proof.
  intros T_wide Hm Hl.
  destruct body as [|c0 body]; [discriminate Hl|].
  destruct body as [|c1 body]; [discriminate Hl|].
  destruct body as [|c2 body]; [discriminate Hl|].
  destruct body as [|c3 body]; [discriminate Hl|].
  destruct body as [|c4 body]; [discriminate Hl|].
  destruct body as [|c5 body]; [discriminate Hl|].
  destruct body as [|c6 body]; [discriminate Hl|].
  destruct body as [|c7 body]; [discriminate Hl|].
  destruct body as [|c8 body]; [discriminate Hl|].
  destruct body as [|c9 body]; [discriminate Hl|].
  destruct body as [|c10 body]; [discriminate Hl|].
  destruct body as [|c11 body]; [discriminate Hl|].
  destruct body as [|c12 body]; [discriminate Hl|].
  destruct body as [|c13 body]; [discriminate Hl|].
  destruct body as [|c14 body]; [discriminate Hl|].
  destruct body as [|c15 body]; [discriminate Hl|].
  destruct body as [|c16 body]; [discriminate Hl|].
  destruct body as [|c17 body]; [discriminate Hl|].
  destruct body as [|c18 body]; [discriminate Hl|].
  destruct body as [|c19 body]; [discriminate Hl|].
  destruct body as [|c20 body]; [discriminate Hl|].
  destruct body as [|c21 body]; [discriminate Hl|].
  destruct body as [|c22 body]; [discriminate Hl|].
  destruct body as [|c23 body]; [discriminate Hl|].
  destruct body as [|c24 body]; [discriminate Hl|].
  destruct body as [|c25 body]; [discriminate Hl|].
  destruct body as [|c26 body]; [discriminate Hl|].
  destruct body as [|c27 body]; [discriminate Hl|].
  destruct body as [|c28 body]; [discriminate Hl|].
  destruct body as [|c29 body]; [discriminate Hl|].
  destruct body as [|c30 body]; [discriminate Hl|].
  destruct body as [|c31 body]; [discriminate Hl|].
  destruct body as [|c32 body]; [discriminate Hl|].
  destruct body as [|c33 body]; [discriminate Hl|].
  destruct body as [|c34 body]; [discriminate Hl|].
  destruct body as [|c35 body]; [discriminate Hl|].
  destruct body; [|discriminate Hl]. clear Hl.
  change body_layout with
    [hex_slot; hex_slot; hex_slot; hex_slot; hex_slot; hex_slot; hex_slot; hex_slot;
     dash_slot; hex_slot; hex_slot; hex_slot; hex_slot;
     dash_slot; hex_slot; hex_slot; hex_slot; hex_slot;
     dash_slot; hex_slot; hex_slot; hex_slot; hex_slot;
     dash_slot; hex_slot; hex_slot; hex_slot; hex_slot; hex_slot; hex_slot; hex_slot;
     hex_slot; hex_slot; hex_slot; hex_slot; hex_slot] in Hm.
  apply matches_layout_cons in Hm; destruct Hm as [H0 Hm].
  apply matches_layout_cons in Hm; destruct Hm as [H1 Hm].
  apply matches_layout_cons in Hm; destruct Hm as [H2 Hm].
  apply matches_layout_cons in Hm; destruct Hm as [H3 Hm].
  apply matches_layout_cons in Hm; destruct Hm as [H4 Hm].
  apply matches_layout_cons in Hm; destruct Hm as [H5 Hm].
  apply matches_layout_cons in Hm; destruct Hm as [H6 Hm].
  apply matches_layout_cons in Hm; destruct Hm as [H7 Hm].
  apply matches_layout_cons in Hm; destruct Hm as [H8 Hm].
  apply matches_layout_cons in Hm; destruct Hm as [H9 Hm].
  apply matches_layout_cons in Hm; destruct Hm as [H10 Hm].
  apply matches_layout_cons in Hm; destruct Hm as [H11 Hm].
  apply matches_layout_cons in Hm; destruct Hm as [H12 Hm].
  apply matches_layout_cons in Hm; destruct Hm as [H13 Hm].
  apply matches_layout_cons in Hm; destruct Hm as [H14 Hm].
  apply matches_layout_cons in Hm; destruct Hm as [H15 Hm].
  apply matches_layout_cons in Hm; destruct Hm as [H16 Hm].
  apply matches_layout_cons in Hm; destruct Hm as [H17 Hm].
  apply matches_layout_cons in Hm; destruct Hm as [H18 Hm].
  apply matches_layout_cons in Hm; destruct Hm as [H19 Hm].
  apply matches_layout_cons in Hm; destruct Hm as [H20 Hm].
  apply matches_layout_cons in Hm; destruct Hm as [H21 Hm].
  apply matches_layout_cons in Hm; destruct Hm as [H22 Hm].
  apply matches_layout_cons in Hm; destruct Hm as [H23 Hm].
  apply matches_layout_cons in Hm; destruct Hm as [H24 Hm].
  apply matches_layout_cons in Hm; destruct Hm as [H25 Hm].
  apply matches_layout_cons in Hm; destruct Hm as [H26 Hm].
  apply matches_layout_cons in Hm; destruct Hm as [H27 Hm].
  apply matches_layout_cons in Hm; destruct Hm as [H28 Hm].
  apply matches_layout_cons in Hm; destruct Hm as [H29 Hm].
  apply matches_layout_cons in Hm; destruct Hm as [H30 Hm].
  apply matches_layout_cons in Hm; destruct Hm as [H31 Hm].
  apply matches_layout_cons in Hm; destruct Hm as [H32 Hm].
  apply matches_layout_cons in Hm; destruct Hm as [H33 Hm].
  apply matches_layout_cons in Hm; destruct Hm as [H34 Hm].
  apply matches_layout_cons in Hm; destruct Hm as [H35 Hm].
  clear Hm. cbn [slot_matches] in *.
  apply Z.eqb_eq in H8, H13, H18, H23. subst c8 c13 c18 c23.
  destruct (canon_uint32 T T_wide c0 c1 c2 c3 c4 c5 c6 c7) as (d1 & R1 & C1 & E1); try assumption.
  destruct (canon_uint16 T T_wide c9 c10 c11 c12) as (d2 & R2 & C2 & E2); try assumption.
  destruct (canon_uint16 T T_wide c14 c15 c16 c17) as (d3 & R3 & C3 & E3); try assumption.
  destruct (canon_byte T T_wide c19 c20) as (b0 & Rb0 & Cb0 & Eb0); try assumption.
  destruct (canon_byte T T_wide c21 c22) as (b1 & Rb1 & Cb1 & Eb1); try assumption.
  destruct (canon_byte T T_wide c24 c25) as (b2 & Rb2 & Cb2 & Eb2); try assumption.
  destruct (canon_byte T T_wide c26 c27) as (b3 & Rb3 & Cb3 & Eb3); try assumption.
  destruct (canon_byte T T_wide c28 c29) as (b4 & Rb4 & Cb4 & Eb4); try assumption.
  destruct (canon_byte T T_wide c30 c31) as (b5 & Rb5 & Cb5 & Eb5); try assumption.
  destruct (canon_byte T T_wide c32 c33) as (b6 & Rb6 & Cb6 & Eb6); try assumption.
  destruct (canon_byte T T_wide c34 c35) as (b7 & Rb7 & Cb7 & Eb7); try assumption.
  exists (Guid d1 d2 d3 [b0; b1; b2; b3; b4; b5; b6; b7]). split; [|split].
  - constructor; cbn [Data1 Data2 Data3 Data4]; try lia; [reflexivity|].
    repeat (apply Forall_cons; [assumption|]). apply Forall_nil.
  - change (consumes (guid_parser.parse_fields T)
      ([c0; c1; c2; c3; c4; c5; c6; c7] ++
     ([lit "-"] ++ [c9; c10; c11; c12]) ++
     ([lit "-"] ++ [c14; c15; c16; c17]) ++
     ([lit "-"] ++ [c19; c20]) ++ [c21; c22] ++
     ([lit "-"] ++ [c24; c25]) ++ [c26; c27] ++
     [c28; c29] ++ [c30; c31] ++ [c32; c33] ++ [c34; c35] ++ [])
      (Guid d1 d2 d3 [b0; b1; b2; b3; b4; b5; b6; b7])).
    unfold guid_parser.parse_fields.
    rewrite (cast_ascii T (lit "-") T_wide) by (split; [discriminate | reflexivity]).
    eapply consumes_bind; [exact C1|].
    eapply consumes_bind; [apply consumes_after; exact C2|].
    eapply consumes_bind; [apply consumes_after; exact C3|].
    eapply consumes_bind; [apply consumes_after; exact Cb0|].
    eapply consumes_bind; [exact Cb1|].
    eapply consumes_bind; [apply consumes_after; exact Cb2|].
    eapply consumes_bind; [exact Cb3|].
    eapply consumes_bind; [exact Cb4|].
    eapply consumes_bind; [exact Cb5|].
    eapply consumes_bind; [exact Cb6|].
    eapply consumes_bind; [exact Cb7|].
    apply consumes_ret.
  - unfold guid_text, Data4_at. cbn [Data1 Data2 Data3 Data4 nth].
    rewrite E1, E2, E3, Eb0, Eb1, Eb2, Eb3, Eb4, Eb5, Eb6, Eb7.
    rewrite (cast_ascii T (lit "-") T_wide) by (split; [discriminate | reflexivity]).
    rewrite (cast_ascii T (lit "{") T_wide) by (split; [discriminate | reflexivity]).
    rewrite (cast_ascii T (lit "}") T_wide) by (split; [discriminate | reflexivity]).
    rewrite (cast_ascii T 0 T_wide) by (split; [discriminate | reflexivity]).
    reflexivity.
Qed.

Lemma matches_layout_length : forall l cs,
  matches_layout l cs = true -> (length l <= length cs)%nat.
Proof.
  induction l as [|s l IH]; intros cs H; [cbn; lia|].
  destruct cs as [|c cs]; [discriminate H|].
  apply matches_layout_cons in H. destruct H as [_ H]. apply IH in H. cbn [length]. lia.
Qed.

Lemma matches_layout_firstn : forall l cs,
  matches_layout l cs = true -> matches_layout l (firstn (length l) cs) = true.
Proof.
  induction l as [|s l IH]; intros cs H; [reflexivity|].
  destruct cs as [|c cs]; [discriminate H|].
  apply matches_layout_cons in H. destruct H as [Hs H].
  cbn [length firstn matches_layout]. rewrite Hs, (IH cs H). reflexivity.
Qed.

Lemma body_not_braced body rest :
  matches_layout body_layout body = true -> brace_offset (body ++ rest) = 0%nat.
Proof.
  intros H. destruct body as [|c body]; [discriminate H|].
  apply matches_layout_cons in H. destruct H as [Hc _]. cbn [slot_matches] in Hc.
  cbn [app brace_offset]. destruct (Z.eqb_spec c (lit "{")) as [->|]; [discriminate Hc | reflexivity].
Qed.

Lemma parse_unbraced T body g rest :
  8 <= bits T ->
  matches_layout body_layout body = true ->
  consumes (guid_parser.parse_fields T) body g ->
  parse_guid T (body ++ 0 :: rest) = Return g.
Proof.
  intros T_wide Hm C.
  assert (Hne : body ++ 0 :: rest <> []) by (destruct body; discriminate).
  unfold parse_guid. rewrite (parse_opening T T_wide _ Hne), (body_not_braced body _ Hm).
  rewrite (cast_ascii T 0 T_wide) by (split; [discriminate | reflexivity]).
  assert (C' : consumes (parsed <- guid_parser.parse_fields T ;;
                         pret tt ;;; guid_parser.ParseChar 0 ;;; pret parsed)
                        (body ++ [] ++ [0] ++ []) g).
  { eapply consumes_bind; [exact C|].
    eapply consumes_bind; [apply consumes_ret|].
    eapply consumes_bind; [apply consumes_ParseChar|].
    apply consumes_ret. }
  specialize (C' [] rest). cbn [app length] in C'. rewrite <- app_assoc in C'.
  cbn [app] in C'. rewrite C'. reflexivity.
Qed.

Lemma parse_braced T body g rest :
  8 <= bits T ->
  consumes (guid_parser.parse_fields T) body g ->
  parse_guid T (lit "{" :: body ++ lit "}" :: 0 :: rest) = Return g.
Proof.
  intros T_wide C.
  assert (C' : consumes (guid_parser.parse T)
                        ([lit "{"] ++ body ++ [lit "}"] ++ [0] ++ []) g).
  { unfold guid_parser.parse.
    rewrite (cast_ascii T (lit "{") T_wide) by (split; [discriminate | reflexivity]).
    rewrite (cast_ascii T (lit "}") T_wide) by (split; [discriminate | reflexivity]).
    rewrite (cast_ascii T 0 T_wide) by (split; [discriminate | reflexivity]).
    eapply consumes_bind; [apply consumes_TryParseChar|]. cbv beta.
    eapply consumes_bind; [exact C|]. cbv beta iota.
    eapply consumes_bind; [apply consumes_ParseChar|].
    eapply consumes_bind; [apply consumes_ParseChar|].
    apply consumes_ret. }
  specialize (C' [] rest). cbn [app length] in C'. rewrite <- app_assoc in C'.
  cbn [app] in C'. unfold parse_guid. rewrite C'. reflexivity.
Qed.

(** X10: the braces are optional: a well-formed body followed by the
    terminator, and the same body between braces followed by the terminator,
    parse to the same guid, whose fields are in range. *)
Theorem parse_guid_brace_optional (T : int_type) (body rest : list Z) :
  8 <= bits T ->
  matches_layout body_layout body = true -> length body = 36%nat ->
  exists g, valid_guid g /\
            parse_guid T (body ++ 0 :: rest) = Return g /\
            parse_guid T (lit "{" :: body ++ lit "}" :: 0 :: rest) = Return g.
Proof.
  intros T_wide Hm Hl.
  destruct (fields_canon T body T_wide Hm Hl) as (g & Hv & C & _).
  exists g. split; [exact Hv|]. split.
  - apply parse_unbraced; assumption.
  - apply parse_braced; assumption.
Qed.

Lemma parse_guid_brace_optional_witness :
  exists g, valid_guid g /\
    parse_guid char (c_str "00000037-0000-0000-C000-000000000046") = Return g /\
    parse_guid char (c_str "{00000037-0000-0000-C000-000000000046}") = Return g.
Proof.
  apply (parse_guid_brace_optional char
           (map lit (list_ascii_of_string "00000037-0000-0000-C000-000000000046")) []).
  - discriminate.
  - reflexivity.
  - reflexivity.
Defined.

Lemma parse_guid_fields T str g g' q :
  8 <= bits T ->
  parse_guid T str = Return g ->
  guid_parser.parse_fields T str (brace_offset str) = Return (g', q) ->
  g = g'.
Proof.
  intros T_wide Hg Hf. destruct str as [|x rest]; [discriminate Hg|].
  unfold parse_guid in Hg. rewrite (parse_opening T T_wide) in Hg by discriminate.
  unfold pbind at 1 in Hg. rewrite Hf in Hg. unfold pbind, pret in Hg.
  destruct (brace_offset (x :: rest)).
  - destruct (guid_parser.ParseChar (cast T 0) (x :: rest) q) as [[[] ?]| | |];
      try discriminate Hg. injection Hg as <-. reflexivity.
  - destruct (guid_parser.ParseChar (cast T (lit "}")) (x :: rest) q) as [[[] q1]| | |];
      try discriminate Hg.
    destruct (guid_parser.ParseChar (cast T 0) (x :: rest) q1) as [[[] ?]| | |];
      try discriminate Hg. injection Hg as <-. reflexivity.
Qed.

Lemma brace_offset_prefix str :
  str <> [] -> length (firstn (brace_offset str) str) = brace_offset str.
Proof.
  intros H. destruct str as [|x rest]; [contradiction|].
  cbn [brace_offset]. destruct (x =? lit "{"); reflexivity.
Qed.

Lemma parse_canonical T str g :
  8 <= bits T ->
  parse_guid T str = Return g ->
  matches_layout body_layout (firstn 36 (skipn (brace_offset str) str)) = true /\
  length (firstn 36 (skipn (brace_offset str) str)) = 36%nat /\
  valid_guid g /\
  guid_text T g =
    [lit "{"] ++ map to_lower_hex (firstn 36 (skipn (brace_offset str) str)) ++ [lit "}"; 0].
Proof.
  intros T_wide Hg.
  pose proof (parse_returns_well_formed T str g T_wide Hg) as W.
  unfold well_formed in W. apply andb_prop in W. destruct W as [Hm _].
  assert (Hne : str <> []) by (intros ->; discriminate Hg).
  pose proof (matches_layout_firstn _ _ Hm) as Hb.
  pose proof (matches_layout_length _ _ Hm) as Hlen.
  change (length body_layout) with 36%nat in Hb, Hlen.
  set (body := firstn 36 (skipn (brace_offset str) str)) in *.
  assert (Hl : length body = 36%nat) by (unfold body; rewrite length_firstn; lia).
  destruct (fields_canon T body T_wide Hb Hl) as (g' & Hv & C & E).
  specialize (C (firstn (brace_offset str) str) (skipn 36 (skipn (brace_offset str) str))).
  unfold body in C at 1. rewrite firstn_skipn, firstn_skipn, (brace_offset_prefix str Hne) in C.
  rewrite (parse_guid_fields T str g g' _ T_wide Hg C).
  auto.
Qed.

(** X11: when parse_guid returns a guid, the fields of the guid are in
    range and formatting it gives the canonical form of the text that was
    parsed: the body with its hexadecimal letters in lower case, between
    braces, and the terminator. *)
Theorem format_parse_canonical (T : int_type) (str : list Z) (g : guid) :
  8 <= bits T ->
  parse_guid T str = Return g ->
  valid_guid g /\
  formatted_guid.value T g =
  Return ([lit "{"] ++
          map to_lower_hex (firstn 36 (skipn (brace_offset str) str)) ++
          [lit "}"; 0]).
Proof.
  intros T_wide Hg.
  destruct (parse_canonical T str g T_wide Hg) as (_ & _ & Hv & E).
  split; [exact Hv|]. rewrite (value_returns T g Hv), E. reflexivity.
Qed.

Lemma format_parse_canonical_witness :
  parse_guid char (c_str "00000037-0000-0000-C000-000000000046")
    = Return (Guid 0x37 0 0 [0xC0; 0; 0; 0; 0; 0; 0; 0x46]) /\
  formatted_guid.value char (Guid 0x37 0 0 [0xC0; 0; 0; 0; 0; 0; 0; 0x46])
    = Return (c_str "{00000037-0000-0000-c000-000000000046}").
Proof.
  split; [reflexivity|].
  exact (proj2 (format_parse_canonical char
                  (c_str "00000037-0000-0000-C000-000000000046")
                  (Guid 0x37 0 0 [0xC0; 0; 0; 0; 0; 0; 0; 0x46])
                  ltac:(discriminate) eq_refl)).
Defined.

(** ** to_string *)

Lemma basic_string_terminated : forall l rest,
  Forall (fun c => c <> 0) l -> basic_string (l ++ 0 :: rest) = Return l.
Proof.
  induction l as [|c l IH]; intros rest H; [reflexivity|].
  inversion_clear H as [|? ? Hc Hl]. cbn [app basic_string].
  destruct (Z.eqb_spec c 0) as [E|_]; [contradiction|].
  rewrite (IH rest Hl). reflexivity.
Qed.

Lemma to_lower_hex_idem c : to_lower_hex (to_lower_hex c) = to_lower_hex c.
Proof.
  unfold to_lower_hex. change (lit "a") with 97. change (lit "A") with 65.
  change (lit "F") with 70.
  destruct (Z.leb_spec 65 c), (Z.leb_spec c 70); cbn [andb]; split_comparisons;
    cbn [andb]; lia.
Qed.

Lemma layout_lower_nonzero : forall l cs,
  matches_layout l cs = true -> length cs = length l ->
  Forall (fun c => c <> 0) (map to_lower_hex cs).
Proof.
  induction l as [|s l IH]; intros cs H Hl.
  - destruct cs; [apply Forall_nil | discriminate Hl].
  - destruct cs as [|c cs]; [discriminate H|].
    apply matches_layout_cons in H. destruct H as [Hs H]. cbn [map].
    apply Forall_cons; [|apply IH; [exact H | cbn in Hl; lia]].
    destruct s; cbn [slot_matches] in Hs.
    + destruct recases_lower as (L1 & _ & _). rewrite <- L1 in Hs.
      intros E. rewrite E in Hs. discriminate Hs.
    + apply Z.eqb_eq in Hs. subst c. discriminate.
Qed.

(** X12: for a guid whose fields are in range, to_string returns the 38
    code units of the text without the terminator, none of them zero and
    all hexadecimal letters in lower case; with the terminator appended they
    are the formatter's buffer, and parse_guid reads them back to the guid. *)
Theorem to_string_roundtrip (T : int_type) (g : guid) :
  8 <= bits T -> valid_guid g ->
  exists s,
    to_string T g = Return s /\
    length s = 38%nat /\ ~ In 0 s /\ map to_lower_hex s = s /\
    formatted_guid.value T g = Return (basic_string_c_str s) /\
    parse_guid T (basic_string_c_str s) = Return g.
Proof.
  intros T_wide Hv.
  pose proof (parse_guid_text T T_wide g Hv) as P.
  destruct (parse_canonical T _ g T_wide P) as (Hm & Hl & _ & E).
  set (body := firstn 36 (skipn (brace_offset (guid_text T g)) (guid_text T g))) in *.
  pose proof (layout_lower_nonzero body_layout body Hm Hl) as NZ.
  exists ([lit "{"] ++ map to_lower_hex body ++ [lit "}"]).
  assert (Ec : guid_text T g =
               basic_string_c_str ([lit "{"] ++ map to_lower_hex body ++ [lit "}"])).
  { rewrite E. unfold basic_string_c_str. rewrite <- !app_assoc. reflexivity. }
  split; [|split; [|split; [|split; [|split]]]].
  - unfold to_string. rewrite (value_returns T g Hv), Ec. cbn [obind].
    apply basic_string_terminated.
    cbn [app]. apply Forall_cons; [discriminate|].
    apply Forall_app. split; [exact NZ|]. apply Forall_cons; [discriminate | apply Forall_nil].
  - rewrite !length_app, length_map, Hl. reflexivity.
  - intros Hin. cbn [app] in Hin. destruct Hin as [Hin|Hin]; [discriminate Hin|].
    apply in_app_or in Hin. destruct Hin as [Hin|[Hin|[]]]; [|discriminate Hin].
    rewrite Forall_forall in NZ. exact (NZ 0 Hin eq_refl).
  - rewrite !map_app, map_map. cbn [map]. do 2 f_equal.
    apply map_ext. intros c. apply to_lower_hex_idem.
  - rewrite (value_returns T g Hv), Ec. reflexivity.
  - rewrite <- Ec. exact P.
Qed.

Lemma to_string_roundtrip_witness :
  valid_guid example_guid /\
  exists s,
    to_string char example_guid = Return s /\
    length s = 38%nat /\ ~ In 0 s /\ map to_lower_hex s = s /\
    formatted_guid.value char example_guid = Return (basic_string_c_str s) /\
    parse_guid char (basic_string_c_str s) = Return example_guid.
Proof.
  split; [exact example_guid_valid|].
  apply (to_string_roundtrip char example_guid); [discriminate | exact example_guid_valid].
Defined.

(** ** hresult: the encoding of OS error codes *)

Lemma failure_from_win32_value e :
  0 < e < 2 ^ 16 -> failure_from_win32 e = Return (e - 2147024896).
Proof.
  intros He. unfold failure_from_win32. destruct (Z.eqb_spec e 0) as [E|_]; [lia|].
  f_equal. change 0x80070000 with (Z.shiftl 0x8007 16).
  rewrite lor_shiftl_add by lia.
  unfold cast, hresult, int32_t, wrap_signed; cbn [is_signed bits].
  change (2 ^ (32 - 1)) with 2147483648. change (2 ^ 32) with 4294967296.
  change (2 ^ 16) with 65536 in *.
  replace (32775 * 65536 + e + 2147483648) with (e + 458752 + 1 * 4294967296) by lia.
  rewrite Z.mod_add by lia. rewrite Z.mod_small by lia. lia.
Qed.

(** X13: failure_from_win32 throws invalid_win32_error_code for 0; for a
    non-zero 16-bit code it returns a failure hresult whose low sixteen bits
    are the code and whose high sixteen bits are 0x8007, so different codes
    give different hresults, and throw_if_failure throws on the result. *)
Theorem failure_from_win32_carries_code (e e' : Z) :
  0 < e < 2 ^ 16 -> 0 < e' < 2 ^ 16 ->
  failure_from_win32 0 = Throw invalid_win32_error_code /\
  exists r,
    failure_from_win32 e = Return r /\
    is_failure r = true /\
    - 2 ^ 31 <= r < 2 ^ 31 /\
    Z.land r 0xFFFF = e /\
    Z.shiftr (r mod 2 ^ 32) 16 = 0x8007 /\
    throw_if_failure r = Throw (hresult_failure r) /\
    (failure_from_win32 e' = Return r -> e' = e).
Proof.
  intros He He'. split; [reflexivity|].
  exists (e - 2147024896). change (2 ^ 16) with 65536 in *.
  assert (F : is_failure (e - 2147024896) = true) by (apply is_failure_negative; lia).
  split; [apply failure_from_win32_value; exact He|].
  split; [exact F|].
  split; [change (2 ^ 31) with 2147483648; lia|].
  split; [|split; [|split]].
  - change 0xFFFF with (Z.ones 16). rewrite Z.land_ones by lia. change (2 ^ 16) with 65536.
    replace (e - 2147024896) with (e + (-32761) * 65536) by lia.
    rewrite Z.mod_add by lia. apply Z.mod_small. lia.
  - change (2 ^ 32) with 4294967296.
    replace (e - 2147024896) with (e + 2147942400 + (-1) * 4294967296) by lia.
    rewrite Z.mod_add by lia. rewrite Z.mod_small by lia.
    rewrite Z.shiftr_div_pow2 by lia. change (2 ^ 16) with 65536.
    symmetry. apply Z.div_unique with e; lia.
  - unfold throw_if_failure, make_hresult_failure. rewrite F. reflexivity.
  - rewrite (failure_from_win32_value e' He'). intros H. injection H as H. lia.
Qed.

Lemma failure_from_win32_carries_code_witness :
  exists r,
    failure_from_win32 1168 = Return r /\
    is_failure r = true /\
    - 2 ^ 31 <= r < 2 ^ 31 /\
    Z.land r 0xFFFF = 1168 /\
    Z.shiftr (r mod 2 ^ 32) 16 = 0x8007 /\
    throw_if_failure r = Throw (hresult_failure r) /\
    (failure_from_win32 14 = Return r -> 14 = 1168).
Proof.
  apply (proj2 (failure_from_win32_carries_code 1168 14
                  ltac:(split; reflexivity) ltac:(split; reflexivity))).
Defined.

(** ** hresult: the exception bridge *)

(** X14: what throw_if_failure throws for a failure code is demoted by
    current_exception_to_hresult to that same code, whatever the fallback. *)
Theorem throw_then_demote (r : Z) (fallback : outcome Z) :
  is_failure r = true ->
  exists e,
    throw_if_failure r = Throw e /\
    current_exception_to_hresult fallback (Some (thrown e)) = Return r.
Proof.
  intros H. exists (hresult_failure r). split; [|reflexivity].
  unfold throw_if_failure, make_hresult_failure. rewrite H. reflexivity.
Qed.

Lemma throw_then_demote_witness :
  exists e,
    throw_if_failure (-2147024882) = Throw e /\
    current_exception_to_hresult unexpected_failure_fallback (Some (thrown e))
    = failure_out_of_memory.
Proof.
  apply (throw_then_demote (-2147024882) unexpected_failure_fallback). reflexivity.
Defined.

(** X15: current_exception_to_hresult never lets an exception out, and with
    the default fallback it returns a failure code for every exception in
    flight, provided an hresult_failure in flight is one its constructor
    accepts (the constructor aborts on a success code). *)
Theorem current_exception_to_hresult_fails (ex : in_flight) (fallback : outcome Z) :
  (forall code, ex = thrown (hresult_failure code) ->
                make_hresult_failure code = Return (hresult_failure code)) ->
  (forall e, current_exception_to_hresult fallback (Some ex) <> Throw e) /\
  (forall e, current_exception_to_hresult fallback None <> Throw e) /\
  exists r, current_exception_to_hresult unexpected_failure_fallback (Some ex) = Return r /\
            is_failure r = true.
Proof.
  intros Hc. split; [|split].
  - intros e. destruct ex as [[]| | | | | | |]; cbn; try discriminate;
      destruct fallback; discriminate.
  - discriminate.
  - destruct ex as [[msg p|msg| |code]| | | | | | |];
      try (eexists; split; reflexivity).
    exists code. split; [reflexivity|].
    specialize (Hc code eq_refl). unfold make_hresult_failure in Hc.
    destruct (is_failure code); [reflexivity | discriminate Hc].
Qed.

Lemma current_exception_to_hresult_fails_witness :
  exists r,
    current_exception_to_hresult unexpected_failure_fallback
      (Some (thrown (hresult_failure (-5)))) = Return r /\
    is_failure r = true.
Proof.
  apply (proj2 (proj2 (current_exception_to_hresult_fails
                         (thrown (hresult_failure (-5))) unexpected_failure_fallback
                         ltac:(intros code H; injection H as <-; reflexivity)))).
Defined.

(** X16: every failure_ constant of the header is defined (no call of
    failure_from_win32 throws), has the value of its Windows HRESULT, is a
    failure that fits in 32 bits, and no two constants are equal. *)
Theorem failure_codes_table :
  osequence failure_codes =
  Return [ 0x8000000A - 2 ^ 32; 0x80004001 - 2 ^ 32; 0x80004002 - 2 ^ 32;
           0x80004004 - 2 ^ 32; 0x80004005 - 2 ^ 32; 0x8000FFFF - 2 ^ 32;
           0x80070005 - 2 ^ 32; 0x80070006 - 2 ^ 32; 0x8007000D - 2 ^ 32;
           0x8007000E - 2 ^ 32; 0x80070015 - 2 ^ 32; 0x80070016 - 2 ^ 32;
           0x80070032 - 2 ^ 32; 0x80070057 - 2 ^ 32; 0x8007007A - 2 ^ 32;
           0x800700EA - 2 ^ 32; 0x80070103 - 2 ^ 32; 0x800703E3 - 2 ^ 32;
           0x800703E5 - 2 ^ 32; 0x80070490 - 2 ^ 32; 0x800704C7 - 2 ^ 32;
           0x8007050B - 2 ^ 32; 0x80070651 - 2 ^ 32; 0x800708CA - 2 ^ 32 ] /\
  (forall r, In (Return r) failure_codes ->
             is_failure r = true /\ - 2 ^ 31 <= r < 2 ^ 31 /\
             throw_if_failure r = Throw (hresult_failure r)) /\
  NoDup failure_codes.
Proof.
  split; [reflexivity|]. split.
  - intros r H. vm_compute in H.
    repeat (destruct H as [H|H];
            [injection H as <-; repeat split; (reflexivity || discriminate)|]).
    contradiction.
  - unfold failure_codes.
    repeat (apply NoDup_cons; [vm_compute; intuition discriminate|]). apply NoDup_nil.
Qed.

(** ** Interface ids *)

(** X17: each of the three interface-id literals of the header parses to a
    guid whose fields are in range, and different interfaces have different
    ids. *)
Theorem iid_of_injective (i j : interface) :
  (exists g, iid_of i = Return g /\ valid_guid g) /\
  (iid_of i = iid_of j -> i = j).
Proof.
  split.
  - destruct i; eexists; (split; [vm_compute; reflexivity|]);
      (constructor; cbn [Data1 Data2 Data3 Data4];
       [split; [discriminate | reflexivity] ..| reflexivity |
        repeat (apply Forall_cons; [split; [discriminate | reflexivity]|]); apply Forall_nil]).
  - destruct i, j; intros H; try reflexivity; vm_compute in H; discriminate H.
Qed.

Lemma iid_of_injective_witness :
  (exists g, iid_of IWeakReference = Return g /\ valid_guid g) /\
  (iid_of IWeakReference = iid_of IWeakReference -> IWeakReference = IWeakReference).
Proof. exact (iid_of_injective IWeakReference IWeakReference). Defined.

(** ** Hash: range *)



Lemma failure_codes_table_witness :
  In (Return (0x80070057 - 2 ^ 32)) failure_codes /\
  is_failure (0x80070057 - 2 ^ 32) = true /\
  throw_if_failure (0x80070057 - 2 ^ 32) = Throw (hresult_failure (0x80070057 - 2 ^ 32)).
Proof.
  assert (H : In (Return (0x80070057 - 2 ^ 32)) failure_codes).
  { do 13 right. left. reflexivity. }
  split; [exact H|].
  destruct (proj1 (proj2 failure_codes_table) _ H) as (F & _ & Th).
  split; [exact F | exact Th].
Defined.

(** ** create_guid *)

Lemma firstn_app_exact (l r : list Z) n : length l = n -> firstn n (l ++ r) = l.
Proof.
  intros <-. rewrite firstn_app, Nat.sub_diag, firstn_all. cbn [firstn]. apply app_nil_r.
Qed.

(** X19: create_guid never throws and never reads outside guidString. It
    returns a guid, whose fields are then in range, exactly when open and
    close succeeded, read delivered 37 bytes, the last of them is a newline
    and the 36 before it are a well-formed body without braces; in every
    other case it aborts. *)
Theorem create_guid_outcome (open_ok close_ok : bool) (bytes_read : list Z) :
  let accepted :=
    open_ok && close_ok && (length bytes_read =? 37)%nat &&
    (nth 36 bytes_read 0 =? newline) &&
    matches_layout body_layout (firstn 36 bytes_read) in
  (accepted = true ->
   exists g, create_guid open_ok bytes_read close_ok = Return g /\ valid_guid g) /\
  (accepted = false -> create_guid open_ok bytes_read close_ok = Abort).
Proof.
  intros accepted. subst accepted. unfold create_guid.
  destruct open_ok; [|split; [discriminate | reflexivity]].
  destruct (Nat.eqb_spec (length bytes_read) 37) as [Hl|Hl];
    [|destruct close_ok; split; (discriminate || reflexivity)].
  destruct (nth 36 bytes_read 0 =? newline);
    [|destruct close_ok; split; (discriminate || reflexivity)].
  destruct close_ok; [|split; [discriminate | reflexivity]].
  cbn [negb andb].
  assert (L36 : length (firstn 36 bytes_read) = 36%nat) by (rewrite length_firstn; lia).
  split.
  - intros Hm.
    destruct (fields_canon char _ ltac:(discriminate) Hm L36) as (g & Hv & C & _).
    exists g. split; [|exact Hv].
    change (firstn 36 bytes_read ++ [0]) with (firstn 36 bytes_read ++ 0 :: []).
    rewrite (parse_unbraced char _ g [] ltac:(discriminate) Hm C). reflexivity.
  - intros Hm.
    set (str := firstn 36 bytes_read ++ [0]) in *.
    assert (Hk : nth_error str 36 = Some 0).
    { unfold str. rewrite <- L36 at 2. apply nth_error_middle. }
    destruct (parse_guid_terminated char str 36 ltac:(discriminate) Hk)
      as [(g & Hg)|(msg & p & -> & _)]; [|reflexivity].
    exfalso.
    pose proof (parse_returns_well_formed char str g ltac:(discriminate) Hg) as W.
    unfold well_formed in W. apply andb_prop in W. destruct W as [M W].
    assert (Hs : length str = 37%nat) by (unfold str; rewrite length_app, L36; reflexivity).
    destruct (brace_offset str) eqn:B.
    + cbn [skipn] in M. apply matches_layout_firstn in M.
      change (length body_layout) with 36%nat in M. unfold str in M.
      rewrite (firstn_app_exact _ _ 36 L36) in M. congruence.
    + assert (N : nth_error str 37 = None) by (apply nth_error_None; lia).
      rewrite N in W. discriminate W.
Qed.

Lemma create_guid_outcome_witness :
  exists g,
    create_guid true
      (map lit (list_ascii_of_string "0f8fad5b-d9cb-469f-a165-70867728950e") ++ [newline])
      true = Return g /\ valid_guid g.
Proof.
  apply (proj1 (create_guid_outcome true true
           (map lit (list_ascii_of_string "0f8fad5b-d9cb-469f-a165-70867728950e")
            ++ [newline]))).
  reflexivity.
Defined.
